(** * Sonar timetable back end: the scheduling functions of [functions.py]

    A shallow embedding of [time_to_minutes], [optimum_timetable],
    [weighted_scheduling] and [prev], and the properties of them that the
    specification states.

    Python integers are unbounded, so they are [Z].  The [value] of an
    activity may be an int or a float: [Weighted] is the scheduler on int
    values, and every statement about [Weighted] is a statement about int
    values; [WeightedFloat] is the same code on float values.  A Python list
    is a Rocq list read through [getitem], which wraps negative indices and
    raises [IndexError] out of range, as [list.__getitem__] does.  Code that
    can raise lives in the monad [res]; [while] loops take a fuel argument
    and answer [OutOfFuel] when it runs out, so that termination is a theorem
    and not an assumption.  A function that receives a list from its caller
    returns the content of that list at return beside its result, so that
    what it does to its argument can be stated. *)

From Stdlib Require Import ZArith Lia String Ascii.
From Stdlib Require PrimFloat.
From stdpp Require Import base list sorting gmap.

Local Open Scope Z_scope.

(** ** Results of Python code *)

Inductive exn : Type := ValueError | IndexError.

Inductive res (A : Type) : Type :=
| Ret (a : A)
| Raise (e : exn)
| OutOfFuel.

Arguments Ret {A} a.
Arguments Raise {A} e.
Arguments OutOfFuel {A}.

#[global] Instance res_ret : MRet res := fun A a => Ret a.

#[global] Instance res_bind : MBind res := fun A B f m =>
  match m with
  | Ret a => f a
  | Raise e => Raise e
  | OutOfFuel => OutOfFuel
  end.

(** ** Python lists *)

Module Py.

Definition len {A} (l : list A) : Z := Z.of_nat (length l).

(** [l[i]]: a negative index counts from the end. *)
Definition getitem {A} (l : list A) (i : Z) : res A :=
  let j := if i <? 0 then i + len l else i in
  if (0 <=? j) && (j <? len l)
  then match l !! Z.to_nat j with
       | Some x => Ret x
       | None => Raise IndexError
       end
  else Raise IndexError.

(** [l[i] = x] *)
Definition setitem {A} (l : list A) (i : Z) (x : A) : res (list A) :=
  let j := if i <? 0 then i + len l else i in
  if (0 <=? j) && (j <? len l)
  then Ret (<[Z.to_nat j := x]> l)
  else Raise IndexError.

(** [sorted(l, key=key)] and [l.sort(key=key)]: Python's sort is stable, and
    a stable sort has one possible result, the one insertion sort builds. *)
Fixpoint insort {A} (key : A → Z) (x : A) (l : list A) : list A :=
  match l with
  | [] => [x]
  | y :: l' => if key x <=? key y then x :: y :: l' else y :: insort key x l'
  end.

Definition sorted {A} (key : A → Z) (l : list A) : list A :=
  foldr (insort key) [] l.

End Py.

(** ** Wall-clock times *)

(** [datetime.time]: the fields that [strptime] fills from ["%H:%M:%S"]. *)
Record time : Type := { hour : Z; minute : Z; second : Z }.

Definition is_digit (c : ascii) : bool :=
  let n := Z.of_nat (nat_of_ascii c) in (48 <=? n) && (n <=? 57).

Definition digit (c : ascii) : Z := Z.of_nat (nat_of_ascii c) - 48.

(** [s.split(":")] *)
Fixpoint split_colon (s : string) : list string :=
  match s with
  | EmptyString => [EmptyString]
  | String c s' =>
      if Ascii.eqb c ":"%char then EmptyString :: split_colon s'
      else match split_colon s' with
           | f :: fs => String c f :: fs
           | [] => [String c EmptyString]
           end
  end.

(** One field of the format: [%H] is the pattern [2[0-3]|[0-1]\d|\d], [%M] is
    [[0-5]\d|\d], [%S] is [6[0-1]|[0-5]\d|\d] and the [time] constructor then
    refuses seconds above 59.  So a field is one or two digits, at most
    [bound]. *)
Definition field (bound : Z) (s : string) : res Z :=
  match s with
  | String a EmptyString =>
      if is_digit a then Ret (digit a) else Raise ValueError
  | String a (String b EmptyString) =>
      if is_digit a && is_digit b
      then let v := 10 * digit a + digit b in
           if v <=? bound then Ret v else Raise ValueError
      else Raise ValueError
  | _ => Raise ValueError
  end.

(** [datetime.strptime(t, "%H:%M:%S").time()], on ASCII strings.  Every way of
    not matching the format is a [ValueError].  A [str] with other
    characters is outside this definition: the [\d] of the patterns also
    matches the decimal digits of other scripts. *)
Definition strptime (t : string) : res time :=
  match split_colon t with
  | [h; m; s] =>
      h ← field 23 h;
      m ← field 59 m;
      s ← field 59 s;
      mret {| hour := h; minute := m; second := s |}
  | _ => Raise ValueError
  end.

Definition time_to_minutes (t : string) : res Z :=
  t ← strptime t;
  if hour t <? 8
  then mret (hour t + 24 + minute t + 24 * 60)
  else mret (hour t * 60 + minute t).

(** ** The [intervaltree] package

    [IntervalTree] keeps a set of intervals [begin, end) with a datum each
    (its field [all_intervals]); the balanced tree and the boundary table
    beside it only index that set.  The set is a list here, in insertion
    order.  Python iterates over it in hash order; [sorted_begin_unique]
    below shows that sorting a tree of [optimum_timetable] by [begin] gives
    the same list whatever that order is. *)

Module IntervalTree.

Record Interval : Type := { begin : Z; end_ : Z; data : Z }.

#[global] Instance Interval_eq_dec : EqDecision Interval.
Proof. solve_decision. Defined.

Definition t : Type := list Interval.

(** [Interval.is_null]: [begin >= end] *)
Definition is_null (iv : Interval) : bool := begin iv >=? end_ iv.

(** [Interval.contains_point]: [begin <= p < end] *)
Definition contains_point (iv : Interval) (p : Z) : bool :=
  (begin iv <=? p) && (p <? end_ iv).

Definition overlaps_point (tree : t) (p : Z) : bool :=
  existsb (fun iv => contains_point iv p) tree.

(** The keys of [boundary_table]: every begin and every end in the tree. *)
Definition boundary_table (tree : t) : list Z :=
  flat_map (fun iv => [begin iv; end_ iv]) tree.

(** [tree.overlaps(begin, end)], which is [overlaps_range]. *)
Definition overlaps (tree : t) (b e : Z) : bool :=
  match tree with
  | [] => false
  | _ =>
      if b >=? e then false
      else if overlaps_point tree b then true
      else existsb (overlaps_point tree)
             (filter (fun bound => b < bound ∧ bound < e) (boundary_table tree))
  end.

(** [tree.add(interval)]: an interval already present is left alone, a null
    interval is refused. *)
Definition add (tree : t) (iv : Interval) : res t :=
  if bool_decide (iv ∈ tree) then Ret tree
  else if is_null iv then Raise ValueError
  else Ret (tree ++ [iv]).

(** [tree[start:stop] = value] *)
Definition setitem (tree : t) (start stop value : Z) : res t :=
  add tree {| begin := start; end_ := stop; data := value |}.

End IntervalTree.

(** ** [defaultdict(IntervalTree)]

    A dict iterates in the order its keys were first inserted, so it is an
    association list that grows at the end. *)

Module defaultdict.

Definition t : Type := list (Z * IntervalTree.t).

Fixpoint lookup (d : t) (k : Z) : option IntervalTree.t :=
  match d with
  | [] => None
  | (k', v) :: d' => if k' =? k then Some v else lookup d' k
  end.

(** [d[k]]: a missing key is first bound to a fresh, empty tree. *)
Definition getitem (d : t) (k : Z) : IntervalTree.t * t :=
  match lookup d k with
  | Some v => (v, d)
  | None => ([], d ++ [(k, [])])
  end.

(** The tree bound to [k] is an object that the dict shares with whoever
    looked it up: mutating it is seen through the dict. *)
Fixpoint mutate (d : t) (k : Z) (v : IntervalTree.t) : t :=
  match d with
  | [] => []
  | (k', v') :: d' => if k' =? k then (k', v) :: d' else (k', v') :: mutate d' k v
  end.

Definition values (d : t) : list IntervalTree.t := map snd d.

End defaultdict.

(** ** The greedy timetable *)

Module Timetable.

(** The dict of one activity, as the data source returns it. *)
Record activity : Type :=
  { id : Z; schedule_id : Z; start_time : string; end_time : string }.

(** Lines 100 to 102: the tree of the schedule is looked up, the interval is
    tested against it and stored when nothing overlaps. *)
Definition place (trees : defaultdict.t) (sid start stop ident : Z)
  : res defaultdict.t :=
  let '(tree, trees) := defaultdict.getitem trees sid in
  if negb (IntervalTree.overlaps tree start stop)
  then tree ← IntervalTree.setitem tree start stop ident;
       mret (defaultdict.mutate trees sid tree)
  else mret trees.

(** The first loop. *)
Fixpoint place_all (input : list activity) (trees : defaultdict.t)
  : res defaultdict.t :=
  match input with
  | [] => mret trees
  | act :: input =>
      start ← time_to_minutes (start_time act);
      stop ← time_to_minutes (end_time act);
      trees ← place trees (schedule_id act) start stop (id act);
      place_all input trees
  end.

(** The second loop. *)
Definition ordered_ids (trees : defaultdict.t) : list Z :=
  flat_map
    (fun tree =>
       let intervals := Py.sorted IntervalTree.begin tree in
       map IntervalTree.data intervals)
    (defaultdict.values trees).

(** The function returns the content of its argument list at return beside
    its result.  No statement of the body assigns to [input] or to a field of
    one of its dicts. *)
Definition optimum_timetable (input : list activity)
  : list activity * res (list Z) :=
  (input,
   trees ← place_all input [];
   mret (ordered_ids trees)).

(** The packer as the specification presents it, [pack_tracks]: the same two
    loops over records whose times are normalized already. *)
Record normalized : Type :=
  { nid : Z; track_id : Z; start : Z; stop : Z }.

Fixpoint pack_all (input : list normalized) (trees : defaultdict.t)
  : res defaultdict.t :=
  match input with
  | [] => mret trees
  | act :: input =>
      trees ← place trees (track_id act) (start act) (stop act) (nid act);
      pack_all input trees
  end.

Definition pack_tracks (input : list normalized) : res (list Z) :=
  trees ← pack_all input [];
  mret (ordered_ids trees).

Definition normalize (act : activity) : res normalized :=
  start ← time_to_minutes (start_time act);
  stop ← time_to_minutes (end_time act);
  mret {| nid := id act; track_id := schedule_id act;
          start := start; stop := stop |}.

Fixpoint normalize_all (input : list activity) : res (list normalized) :=
  match input with
  | [] => mret []
  | act :: input =>
      n ← normalize act;
      ns ← normalize_all input;
      mret (n :: ns)
  end.

End Timetable.

(** ** Weighted interval scheduling *)

Module Weighted.

(** The dict of one activity, with an int [value]. *)
Record activity : Type :=
  { id : Z; start_time : Z; end_time : Z; value : Z }.

(** The [while] loop of [prev]. *)
Fixpoint prev_loop (fuel : nat) (activities : list activity) (start_time : Z)
    (l r best_idx : Z) : res Z :=
  if l <=? r then
    match fuel with
    | O => OutOfFuel
    | S fuel =>
        let mid := (l + r) `div` 2 in
        a ← Py.getitem activities mid;
        if end_time a <=? start_time
        then prev_loop fuel activities start_time (mid + 1) r mid
        else prev_loop fuel activities start_time l (mid - 1) best_idx
    end
  else Ret best_idx.

(** The loop works on the window [l..r], which starts with [i] indices and
    loses one at least in every round: [i] rounds of fuel are enough. *)
Definition prev (activities : list activity) (i : Z) : res Z :=
  a ← Py.getitem activities i;
  let start_time := start_time a in
  prev_loop (Z.to_nat i) activities start_time 0 (i - 1) (-1).

(** [for i in range(n)], the filling of the table. *)
Fixpoint fill (activities : list activity) (range : list Z) (dp_table : list Z)
  : res (list Z) :=
  match range with
  | [] => Ret dp_table
  | i :: range =>
      p ← prev activities i;
      before ← Py.getitem dp_table (i - 1);
      a ← Py.getitem activities i;
      at_p ← (if p >=? 0 then Py.getitem dp_table p else Ret 0);
      dp_table ← Py.setitem dp_table i (Z.max before (value a + at_p));
      fill activities range dp_table
  end.

(** The backtracking [while] loop. *)
Fixpoint backtrack (fuel : nat) (activities : list activity) (dp_table : list Z)
    (i : Z) (ids : list Z) : res (list Z) :=
  if i >=? 0 then
    match fuel with
    | O => OutOfFuel
    | S fuel =>
        taken ← (if i =? 0 then Ret true
                 else x ← Py.getitem dp_table i;
                      y ← Py.getitem dp_table (i - 1);
                      Ret (negb (x =? y)));
        if taken : bool
        then a ← Py.getitem activities i;
             p ← prev activities i;
             backtrack fuel activities dp_table p (ids ++ [id a])
        else backtrack fuel activities dp_table (i - 1) ids
    end
  else Ret ids.

(** [activities.sort] sorts the caller's list in place: the function returns
    the content of that list at return beside its result.  The index [i]
    starts at [n - 1] and goes down in every round, so [n] rounds of fuel are
    enough. *)
Definition weighted_scheduling (activities : list activity)
  : list activity * res (list Z) :=
  let n := Py.len activities in
  let activities := Py.sorted end_time activities in
  (activities,
   let dp_table := replicate (length activities) (-1) in
   dp_table ← fill activities (seqZ 0 n) dp_table;
   backtrack (Z.to_nat n) activities dp_table (n - 1) []).

(** The table as it stands when the first loop is over, for a list that is
    in the order that the sort leaves. *)
Definition dp_table (activities : list activity) : res (list Z) :=
  fill activities (seqZ 0 (Py.len activities))
    (replicate (length activities) (-1)).

End Weighted.

(** ** Weighted interval scheduling on float values

    The docstring allows a [value] that is an int or a float.  [Weighted] is
    the function on int values; this module is the same code on binary64
    values.  There [+] rounds to nearest, [max(x, y)] is [y] when [y > x] and
    [x] otherwise, and the ints [-1] and [0] of the code act as the floats
    of the same value: Python compares an int with a float exactly and
    converts it for [+], and the conversion of [-1] and of [0] is exact. *)

Module WeightedFloat.
Import PrimFloat.

Record activity : Type :=
  { id : Z; start_time : Z; end_time : Z; value : float }.

Fixpoint prev_loop (fuel : nat) (activities : list activity) (start_time : Z)
    (l r best_idx : Z) : res Z :=
  if l <=? r then
    match fuel with
    | O => OutOfFuel
    | S fuel =>
        let mid := (l + r) `div` 2 in
        a ← Py.getitem activities mid;
        if end_time a <=? start_time
        then prev_loop fuel activities start_time (mid + 1) r mid
        else prev_loop fuel activities start_time l (mid - 1) best_idx
    end
  else Ret best_idx.

Definition prev (activities : list activity) (i : Z) : res Z :=
  a ← Py.getitem activities i;
  let start_time := start_time a in
  prev_loop (Z.to_nat i) activities start_time 0 (i - 1) (-1).

(** [max(x, y)] *)
Definition max (x y : float) : float := if ltb x y then y else x.

Fixpoint fill (activities : list activity) (range : list Z)
    (dp_table : list float) : res (list float) :=
  match range with
  | [] => Ret dp_table
  | i :: range =>
      p ← prev activities i;
      before ← Py.getitem dp_table (i - 1);
      a ← Py.getitem activities i;
      at_p ← (if p >=? 0 then Py.getitem dp_table p else Ret 0%float);
      dp_table ← Py.setitem dp_table i (max before (add (value a) at_p));
      fill activities range dp_table
  end.

Fixpoint backtrack (fuel : nat) (activities : list activity)
    (dp_table : list float) (i : Z) (ids : list Z) : res (list Z) :=
  if i >=? 0 then
    match fuel with
    | O => OutOfFuel
    | S fuel =>
        taken ← (if i =? 0 then Ret true
                 else x ← Py.getitem dp_table i;
                      y ← Py.getitem dp_table (i - 1);
                      Ret (negb (eqb x y)));
        if taken : bool
        then a ← Py.getitem activities i;
             p ← prev activities i;
             backtrack fuel activities dp_table p (ids ++ [id a])
        else backtrack fuel activities dp_table (i - 1) ids
    end
  else Ret ids.

Definition weighted_scheduling (activities : list activity)
  : list activity * res (list Z) :=
  let n := Py.len activities in
  let activities := Py.sorted end_time activities in
  (activities,
   let dp_table := replicate (length activities) (-1)%float in
   dp_table ← fill activities (seqZ 0 n) dp_table;
   backtrack (Z.to_nat n) activities dp_table (n - 1) []).

Definition dp_table (activities : list activity) : res (list float) :=
  fill activities (seqZ 0 (Py.len activities))
    (replicate (length activities) (-1)%float).

(** Three activities one after the other, worth 1e16, 1.0 and 1.0. *)
Definition headliner : activity :=
  {| id := 1; start_time := 0; end_time := 1; value := 1e16%float |}.

Definition support : activity :=
  {| id := 2; start_time := 1; end_time := 2; value := 1%float |}.

Definition opener : activity :=
  {| id := 3; start_time := 2; end_time := 3; value := 1%float |}.

Definition lineup : list activity := [headliner; support; opener].

End WeightedFloat.

(** ** Vocabulary of the statements *)

(** Two half-open intervals [x.1, x.2) and [y.1, y.2) overlap: the strict
    range intersection test. *)
Definition overlap (x y : Z * Z) : Prop := x.1 < y.2 ∧ y.1 < x.2.

#[global] Instance overlap_dec x y : Decision (overlap x y).
Proof. unfold overlap. apply _. Defined.

Definition span (iv : IntervalTree.Interval) : Z * Z :=
  (IntervalTree.begin iv, IntervalTree.end_ iv).

(** What every tree of [optimum_timetable] satisfies: no null interval, and
    two different intervals never overlap. *)
Definition disjoint_tree (tree : IntervalTree.t) : Prop :=
  (∀ iv, iv ∈ tree → IntervalTree.begin iv < IntervalTree.end_ iv) ∧
  (∀ iv iv', iv ∈ tree → iv' ∈ tree → iv = iv' ∨ ¬ overlap (span iv) (span iv')).

(** [iv] is stored under key [k]. *)
Definition stored (trees : defaultdict.t) (k : Z) (iv : IntervalTree.Interval)
  : Prop :=
  ∃ tree, defaultdict.lookup trees k = Some tree ∧ iv ∈ tree.

Definition interval_of (act : Timetable.normalized) : IntervalTree.Interval :=
  {| IntervalTree.begin := Timetable.start act;
     IntervalTree.end_ := Timetable.stop act;
     IntervalTree.data := Timetable.nid act |}.

(** The invariant of the first loop of the packer: keys are distinct, trees
    are disjoint, and every stored interval is the interval of an activity
    met so far, under the key of its track. *)
Definition packed (seen : list Timetable.normalized) (trees : defaultdict.t)
  : Prop :=
  NoDup trees.*1 ∧
  (∀ k tree, defaultdict.lookup trees k = Some tree → disjoint_tree tree) ∧
  (∀ k iv, stored trees k iv →
     ∃ act, act ∈ seen ∧ Timetable.track_id act = k ∧ interval_of act = iv).

(** The interval of an activity as [optimum_timetable] computes it, with
    [time_to_minutes], and the overlap of two activities on these
    intervals. *)
Definition interval (act : Timetable.activity) : res (Z * Z) :=
  start ← time_to_minutes (Timetable.start_time act);
  stop ← time_to_minutes (Timetable.end_time act);
  mret (start, stop).

Definition overlapping (a b : Timetable.activity) : Prop :=
  ∃ x y, interval a = Ret x ∧ interval b = Ret y ∧ overlap x y.

(** The timeline of the specification (section 4.1): a time before 08:00 is
    a time of the next day, [hour * 60 + minute + 24 * 60]; any other time
    is [hour * 60 + minute].  The definitions of this module follow the
    words of the specification, where [time_to_minutes], [interval] and
    [overlapping] above follow line 74 of the code. *)
Module Spec.

Definition minutes (t : time) : Z :=
  if hour t <? 8 then hour t * 60 + minute t + 24 * 60
  else hour t * 60 + minute t.

Definition time_normalizer (s : string) : res Z :=
  t ← strptime s;
  mret (minutes t).

(** The interval that an activity occupies on that timeline. *)
Definition interval (act : Timetable.activity) : res (Z * Z) :=
  start ← time_normalizer (Timetable.start_time act);
  stop ← time_normalizer (Timetable.end_time act);
  mret (start, stop).

Definition overlapping (a b : Timetable.activity) : Prop :=
  ∃ x y, interval a = Ret x ∧ interval b = Ret y ∧ overlap x y.

End Spec.

(** An activity whose two times are from 08:00 on. *)
Definition daytime (act : Timetable.activity) : Prop :=
  ∃ t t', strptime (Timetable.start_time act) = Ret t ∧
          strptime (Timetable.end_time act) = Ret t' ∧
          8 ≤ hour t ∧ 8 ≤ hour t'.

(** Three activities of one schedule, highest priority first: the second
    overlaps the first, the third starts when the first ends. *)
Definition opening : Timetable.activity :=
  {| Timetable.id := 1; Timetable.schedule_id := 1;
     Timetable.start_time := "08:00:00"; Timetable.end_time := "09:00:00" |}.

Definition workshop : Timetable.activity :=
  {| Timetable.id := 2; Timetable.schedule_id := 1;
     Timetable.start_time := "08:30:00"; Timetable.end_time := "09:30:00" |}.

Definition concert : Timetable.activity :=
  {| Timetable.id := 3; Timetable.schedule_id := 1;
     Timetable.start_time := "09:00:00"; Timetable.end_time := "10:00:00" |}.

Definition morning : list Timetable.activity := [opening; workshop; concert].

(** Two activities of the night, of one schedule: on the clock the second,
    from 02:00 to 02:20, lies within the first, from 01:30 to 02:30. *)
Definition dj_set : Timetable.activity :=
  {| Timetable.id := 1; Timetable.schedule_id := 1;
     Timetable.start_time := "01:30:00"; Timetable.end_time := "02:30:00" |}.

Definition closing : Timetable.activity :=
  {| Timetable.id := 2; Timetable.schedule_id := 1;
     Timetable.start_time := "02:00:00"; Timetable.end_time := "02:20:00" |}.

Definition night : list Timetable.activity := [dj_set; closing].

(** The same three on the timeline of minutes that the specification uses. *)
Definition scenario : list Timetable.normalized :=
  [ {| Timetable.nid := 1; Timetable.track_id := 1;
       Timetable.start := 0; Timetable.stop := 60 |};
    {| Timetable.nid := 2; Timetable.track_id := 1;
       Timetable.start := 30; Timetable.stop := 90 |};
    {| Timetable.nid := 3; Timetable.track_id := 1;
       Timetable.start := 60; Timetable.stop := 120 |} ].

(** A list in ascending order of [key]. *)
Definition ascending {A} (key : A → Z) (l : list A) : Prop :=
  ∀ (i j : nat) (a b : A),
    (i ≤ j)%nat → l !! i = Some a → l !! j = Some b → key a ≤ key b.

(** [dp[i]], with [dp[-1]] read as 0: the convention of the comment that
    states the recurrence. *)
Definition entry (dp : list Z) (i : Z) : Z :=
  if i <? 0 then 0 else default 0 (dp !! Z.to_nat i).

(** The recurrence at index [i] of a table [dp], where [first] stands for
    [dp[i - 1]] when [i] is 0. *)
Definition recurrence (first : Z) (activities : list Weighted.activity)
    (dp : list Z) (i : Z) : Prop :=
  ∃ p a, Weighted.prev activities i = Ret p ∧
         Py.getitem activities i = Ret a ∧
         Py.getitem dp i =
         Ret (Z.max (if i =? 0 then first else entry dp (i - 1))
                    (Weighted.value a + entry dp p)).

(** The scenario of the specification for the weighted scheduler, in
    ascending order of [end_time] already. *)
Definition talk : Weighted.activity :=
  {| Weighted.id := 1; Weighted.start_time := 0; Weighted.end_time := 5;
     Weighted.value := 5 |}.

Definition panel : Weighted.activity :=
  {| Weighted.id := 2; Weighted.start_time := 3; Weighted.end_time := 8;
     Weighted.value := 6 |}.

Definition show : Weighted.activity :=
  {| Weighted.id := 3; Weighted.start_time := 6; Weighted.end_time := 10;
     Weighted.value := 5 |}.

Definition programme : list Weighted.activity := [talk; panel; show].

(** One activity of negative value. *)
Definition debt : Weighted.activity :=
  {| Weighted.id := 1; Weighted.start_time := 0; Weighted.end_time := 1;
     Weighted.value := -5 |}.

(** The summed value of a set of activities. *)
Definition total (l : list Weighted.activity) : Z :=
  foldr (λ a s, Weighted.value a + s) 0 l.

Definition span_of (a : Weighted.activity) : Z * Z :=
  (Weighted.start_time a, Weighted.end_time a).

(** No two activities of [l], at different places, overlap. *)
Definition non_overlapping (l : list Weighted.activity) : Prop :=
  ∀ (i j : nat) (a b : Weighted.activity),
    i ≠ j → l !! i = Some a → l !! j = Some b →
    ¬ overlap (span_of a) (span_of b).

(** The activities whose ids are returned. *)
Definition selected (activities : list Weighted.activity) (ids : list Z)
  : list Weighted.activity :=
  filter (λ a, Weighted.id a ∈ ids) activities.

(** Every activity occupies a proper interval. *)
Definition proper (l : list Weighted.activity) : Prop :=
  ∀ a, a ∈ l → Weighted.start_time a < Weighted.end_time a.

(** Every interval that a dict of trees holds, tree after tree. *)
Definition all_stored (trees : defaultdict.t) : list IntervalTree.Interval :=
  flat_map snd trees.

(** The keys of a list in the order of their first occurrence: the order in
    which a dict comes to know them. *)
Fixpoint first_seen (keys : list Z) : list Z :=
  match keys with
  | [] => []
  | k :: keys => k :: filter (λ k', k' ≠ k) (first_seen keys)
  end.


(** [s.isascii()].  A [string] stands for a Python [str] of ASCII
    characters; on such a string the digits that the patterns of [strptime]
    accept are the ten that [is_digit] accepts. *)
Fixpoint isascii (s : string) : bool :=
  match s with
  | EmptyString => true
  | String c s' => (Z.of_nat (nat_of_ascii c) <? 128) && isascii s'
  end.

(** The time strings of the activities of an input are ASCII. *)
Definition ascii_times (input : list Timetable.activity) : Prop :=
  Forall (λ act, isascii (Timetable.start_time act) = true ∧
                 isascii (Timetable.end_time act) = true) input.

(** An activity of [optimum_timetable] is well formed: its times parse and
    its normalized interval is proper. *)
Definition well_formed (act : Timetable.activity) : Prop :=
  ∃ x, interval act = Ret x ∧ x.1 < x.2.

(** Every activity met so far is stored, or overlaps a stored activity of
    its track that came before it. *)
Definition covered (seen : list Timetable.normalized) (trees : defaultdict.t)
  : Prop :=
  ∀ (j : nat) (n : Timetable.normalized),
    seen !! j = Some n →
    stored trees (Timetable.track_id n) (interval_of n) ∨
    ∃ (i : nat) (a : Timetable.normalized),
      (i < j)%nat ∧ seen !! i = Some a ∧
      Timetable.track_id a = Timetable.track_id n ∧
      stored trees (Timetable.track_id n) (interval_of a) ∧
      overlap (span (interval_of a)) (span (interval_of n)).

(** ** The callers: [activities_results] and [activities_swipes]

    The data source is the module-level [supabase] client; what its two
    remote procedures and its table query answer is a parameter here.  The
    random draws of [activities_swipes] are parameters too: the value that
    each call of [np.random.choice] returns and the list that
    [random.sample] returns.  The probabilities [weights / weights.sum()],
    which are floats, only shape the law of those draws. *)

(** What a caller can end with: the exceptions of the code above, and the
    [KeyError] of a lookup in [ids_order]. *)
Inductive outcome (A : Type) : Type :=
| Return (a : A)
| Uncaught (e : exn)
| KeyError (key : Z)
| Unfinished.

Arguments Return {A} a.
Arguments Uncaught {A} e.
Arguments KeyError {A} key.
Arguments Unfinished {A}.

Definition outcome_of {A} (r : res A) : outcome A :=
  match r with
  | Ret a => Return a
  | Raise e => Uncaught e
  | OutOfFuel => Unfinished
  end.

(** A row of the table [activities] as [activities_results] selects it. *)
Record item : Type :=
  { item_id : Z; title : string; description : string; image_uri : string;
    item_start_time : string; item_end_time : string; schedule_title : string }.

(** [{id: i for i, id in enumerate(ids)}], counting from [i]: a later
    occurrence of an id replaces the index of an earlier one. *)
Fixpoint enumerate_dict (i : Z) (ids : list Z) (m : gmap Z Z) : gmap Z Z :=
  match ids with
  | [] => m
  | x :: ids => enumerate_dict (i + 1) ids (<[x := i]> m)
  end.

(** The keys of [sorted(data, key=lambda item: ids_order[item["id"]])]:
    [sorted] computes the key of every element before it compares any. *)
Fixpoint keyed (ids_order : gmap Z Z) (data : list item)
  : outcome (list (Z * item)) :=
  match data with
  | [] => Return []
  | x :: data =>
      match ids_order !! item_id x with
      | None => KeyError (item_id x)
      | Some k =>
          match keyed ids_order data with
          | Return ks => Return ((k, x) :: ks)
          | Uncaught e => Uncaught e
          | KeyError key => KeyError key
          | Unfinished => Unfinished
          end
      end
  end.

Section results.

(** [supabase.rpc("get_activities_by_user_preferences", ...).execute().data] *)
Variable get_activities_by_user_preferences : Z → list Timetable.activity.

(** [supabase.table("activities").select(...).in_("id", ids).execute().data] *)
Variable activities_in : list Z → list item.

Definition activities_results (quiz_id : Z) : outcome (list item) :=
  let results := get_activities_by_user_preferences quiz_id in
  match (Timetable.optimum_timetable results).2 with
  | Ret ids =>
      let ids_order := enumerate_dict 0 ids ∅ in
      let results := activities_in ids in
      match keyed ids_order results with
      | Return ks => Return (snd <$> Py.sorted fst ks)
      | Uncaught e => Uncaught e
      | KeyError key => KeyError key
      | Unfinished => Unfinished
      end
  | Raise e => Uncaught e
  | OutOfFuel => Unfinished
  end.

End results.

(** [np.delete(arr, idx)] on a one-dimensional array: the index wraps and is
    checked as in [arr[idx]]. *)
Definition np_delete (arr : list Z) (idx : Z) : res (list Z) :=
  let j := if idx <? 0 then idx + Py.len arr else idx in
  if (0 <=? j) && (j <? Py.len arr)
  then Ret (delete (Z.to_nat j) arr)
  else Raise IndexError.

(** [[f(x) for x in l]] *)
Fixpoint comprehension {A B} (f : A → res B) (l : list A) : res (list B) :=
  match l with
  | [] => Ret []
  | x :: l =>
      y ← f x;
      ys ← comprehension f l;
      Ret (y :: ys)
  end.

Section swipes.

Context {row : Type}.

(** [supabase.rpc("get_matching_activities_by_quiz_tags", ...).execute().data] *)
Variable get_matching_activities_by_quiz_tags : Z → Z → list row.

(** The draw of the round: what [np.random.choice] returns in round [r]. *)
Variable choice : nat → Z.

(** What [random.sample] returns. *)
Variable sample : list Z.

(** The loop [for _ in range(8)]; [r] counts the rounds that are over. *)
Fixpoint roulette (rounds r : nat) (indexes weights selected : list Z)
  : res (list Z) :=
  match rounds with
  | O => Ret selected
  | S rounds =>
      (* prob = weights / weights.sum(); np.random.choice refuses to draw
         from nothing *)
      idx ← (if Py.len indexes <=? 0 then Raise ValueError else Ret (choice r));
      x ← Py.getitem indexes idx;
      let selected := selected ++ [x] in
      indexes ← np_delete indexes idx;
      weights ← np_delete weights idx;
      roulette rounds (S r) indexes weights selected
  end.

Definition activities_swipes (quiz_id match_count : Z) (roulette_on : bool)
  : res (list row) :=
  let results := get_matching_activities_by_quiz_tags quiz_id match_count in
  if roulette_on then
    let indexes := seqZ 0 match_count in
    let weights := reverse (seqZ 1 match_count) in
    selected ← roulette 8 0 indexes weights [];
    let selected := Py.sorted (λ x, x) selected in
    comprehension (Py.getitem results) selected
  else
    selected ← (if match_count <? 8 then Raise ValueError else Ret sample);
    let selected := Py.sorted (λ x, x) selected in
    comprehension (Py.getitem results) selected.

End swipes.

(** The rows of the opening and of the concert, and a table query that
    answers with the concert first. *)
Definition opening_item : item :=
  {| item_id := 1; title := "Opening"; description := ""; image_uri := "";
     item_start_time := "08:00:00"; item_end_time := "09:00:00";
     schedule_title := "Day" |}.

Definition concert_item : item :=
  {| item_id := 3; title := "Concert"; description := ""; image_uri := "";
     item_start_time := "09:00:00"; item_end_time := "10:00:00";
     schedule_title := "Day" |}.

Definition activities_table (ids : list Z) : list item :=
  filter (λ x, item_id x ∈ ids) [concert_item; opening_item].

Definition workshop_item : item :=
  {| item_id := 2; title := "Workshop"; description := ""; image_uri := "";
     item_start_time := "08:30:00"; item_end_time := "09:30:00";
     schedule_title := "Day" |}.

(** A data source that ranks the rows 100, 101, ..., a roulette that always
    draws the first index left, and a sample of eight indexes. *)
Definition ranking (quiz_id match_count : Z) : list Z := seqZ 100 match_count.

Definition first_left (r : nat) : Z := 0.

Definition eight : list Z := [9; 2; 4; 0; 1; 7; 5; 3].

(** * Properties *)

(** ** The monad *)

Lemma bind_Ret {A B} (m : res A) (f : A → res B) (b : B) :
  m ≫= f = Ret b → ∃ a, m = Ret a ∧ f a = Ret b.
Proof. destruct m as [a| |]; simpl; [eauto | discriminate..]. Qed.

Ltac inv_bind H :=
  let a := fresh "x" in
  let E := fresh "E" in
  apply bind_Ret in H as (a & E & H).

(** ** Python lists *)

Lemma getitem_Ret {A} (l : list A) (i : Z) (x : A) :
  0 ≤ i → Py.getitem l i = Ret x ↔ l !! Z.to_nat i = Some x.
Proof.
  intros Hi. unfold Py.getitem, Py.len.
  destruct (Z.ltb_spec i 0); [lia|].
  destruct (Z.leb_spec 0 i); [|lia]. simpl.
  destruct (Z.ltb_spec i (Z.of_nat (length l))).
  - destruct (l !! Z.to_nat i) eqn:E; split; congruence.
  - rewrite (lookup_ge_None_2 l (Z.to_nat i)) by lia. split; discriminate.
Qed.

Lemma getitem_in_range {A} (l : list A) (i : Z) :
  0 ≤ i < Py.len l → ∃ x, Py.getitem l i = Ret x ∧ l !! Z.to_nat i = Some x.
Proof.
  intros Hi. unfold Py.len in Hi.
  destruct (lookup_lt_is_Some_2 l (Z.to_nat i)) as [x Hx]; [lia|].
  exists x. split; [|done]. apply getitem_Ret; [lia|done].
Qed.

Lemma insort_Permutation {A} (key : A → Z) x l :
  Py.insort key x l ≡ₚ x :: l.
Proof.
  induction l as [|y l IH]; simpl; [done|].
  destruct (key x <=? key y); [done|].
  rewrite IH. apply Permutation_swap.
Qed.

Lemma sorted_Permutation {A} (key : A → Z) (l : list A) :
  Py.sorted key l ≡ₚ l.
Proof.
  induction l as [|x l IH]; simpl; [done|].
  rewrite insort_Permutation. by f_equiv.
Qed.

Lemma sorted_length {A} (key : A → Z) (l : list A) :
  length (Py.sorted key l) = length l.
Proof. apply Permutation_length, sorted_Permutation. Qed.

Lemma elem_of_sorted {A} (key : A → Z) (l : list A) x :
  x ∈ Py.sorted key l ↔ x ∈ l.
Proof. by rewrite sorted_Permutation. Qed.

(** ** Sorting *)

Lemma insort_StronglySorted {A} (key : A → Z) (x : A) (l : list A) :
  StronglySorted (λ a b, key a ≤ key b) l →
  StronglySorted (λ a b, key a ≤ key b) (Py.insort key x l).
Proof.
  induction l as [|y l IH]; simpl; intros Hl.
  - repeat constructor.
  - apply StronglySorted_inv in Hl as [Hl Hy].
    destruct (Z.leb_spec (key x) (key y)).
    + constructor; [by constructor|]. constructor; [done|].
      eapply Forall_impl; [done|]. simpl. lia.
    + constructor; [auto|]. rewrite insort_Permutation.
      constructor; [lia|done].
Qed.

Lemma sorted_StronglySorted {A} (key : A → Z) (l : list A) :
  StronglySorted (λ a b, key a ≤ key b) (Py.sorted key l).
Proof.
  induction l as [|x l IH]; simpl; [constructor|].
  by apply insort_StronglySorted.
Qed.

Lemma StronglySorted_ascending {A} (key : A → Z) (l : list A) :
  StronglySorted (λ a b, key a ≤ key b) l → ascending key l.
Proof.
  induction 1 as [|x l Hl IH Hx]; intros i j a b Hij Ha Hb; [done|].
  destruct i as [|i], j as [|j]; simpl in *; try lia.
  - injection Ha as <-. injection Hb as <-. lia.
  - injection Ha as <-. rewrite Forall_forall in Hx.
    apply Hx, list_elem_of_lookup. eauto.
  - apply (IH i j); [lia|done..].
Qed.

Lemma sorted_ascending {A} (key : A → Z) (l : list A) :
  ascending key (Py.sorted key l).
Proof. apply StronglySorted_ascending, sorted_StronglySorted. Qed.

(** The sort is stable: activities with one key keep their order. *)
Lemma insort_filter {A} (key : A → Z) (k : Z) (x : A) (l : list A) :
  StronglySorted (λ a b, key a ≤ key b) l →
  filter (λ a, key a = k) (Py.insort key x l) =
  filter (λ a, key a = k) (x :: l).
Proof.
  induction l as [|y l IH]; simpl; intros Hl; [done|].
  apply StronglySorted_inv in Hl as [Hl Hy].
  destruct (Z.leb_spec (key x) (key y)); [done|].
  rewrite filter_cons, IH by done. rewrite !filter_cons.
  destruct (decide (key y = k)), (decide (key x = k)); try done. lia.
Qed.

Lemma sorted_stable {A} (key : A → Z) (k : Z) (l : list A) :
  filter (λ a, key a = k) (Py.sorted key l) = filter (λ a, key a = k) l.
Proof.
  induction l as [|x l IH]; simpl; [done|].
  rewrite insort_filter by apply sorted_StronglySorted.
  by rewrite !filter_cons, IH.
Qed.

(** A list in order is left as it is. *)
Lemma sorted_id {A} (key : A → Z) (l : list A) :
  StronglySorted (λ a b, key a ≤ key b) l → Py.sorted key l = l.
Proof.
  induction 1 as [|x l Hl IH Hx]; simpl; [done|]. rewrite IH.
  destruct l as [|y l]; simpl; [done|].
  apply Forall_cons in Hx as [Hxy _].
  destruct (Z.leb_spec (key x) (key y)); [done|lia].
Qed.

(** ** The time normalizer *)

Lemma digit_range (c : ascii) : is_digit c = true → 0 ≤ digit c ≤ 9.
Proof. unfold is_digit, digit. intros H%andb_true_iff. lia. Qed.

Lemma field_range (bound : Z) (s : string) (v : Z) :
  field bound s = Ret v → 0 ≤ v ≤ Z.max 9 bound.
Proof.
  destruct s as [|a [|b [|c s]]]; simpl; try discriminate.
  - destruct (is_digit a) eqn:Ha; [|discriminate].
    intros [= <-]. apply digit_range in Ha. lia.
  - destruct (is_digit a) eqn:Ha; [|discriminate].
    destruct (is_digit b) eqn:Hb; [|discriminate]. simpl.
    destruct (Z.leb_spec (10 * digit a + digit b) bound); [|discriminate].
    intros [= <-]. apply digit_range in Ha, Hb. lia.
Qed.

(** A time that [strptime] accepts is a time of day. *)
Lemma strptime_range (s : string) (t : time) :
  strptime s = Ret t →
  0 ≤ hour t ≤ 23 ∧ 0 ≤ minute t ≤ 59 ∧ 0 ≤ second t ≤ 59.
Proof.
  unfold strptime. destruct (split_colon s) as [|h [|m [|sec [|]]]]; try discriminate.
  intros H. inv_bind H. inv_bind H. inv_bind H. injection H as <-. simpl.
  apply field_range in E, E0, E1. lia.
Qed.

(** What the function computes, on every time it accepts. *)
Lemma time_to_minutes_Ret (s : string) (t : time) :
  strptime s = Ret t →
  time_to_minutes s =
  Ret (if hour t <? 8 then hour t + 24 + minute t + 24 * 60
       else hour t * 60 + minute t).
Proof. unfold time_to_minutes. intros ->. simpl. by destruct (hour t <? 8). Qed.

(** From 08:00 on the result is the minute of the day. *)
Lemma time_to_minutes_day (s : string) (t : time) :
  strptime s = Ret t → 8 ≤ hour t →
  time_to_minutes s = Ret (hour t * 60 + minute t).
Proof.
  intros H Hh. rewrite (time_to_minutes_Ret s t H).
  destruct (Z.ltb_spec (hour t) 8); [lia|done].
Qed.

(** Before 08:00 the result is never the minute of the next day: the hour
    is added, with 24, where it should be multiplied by 60. *)
Lemma time_to_minutes_night (s : string) (t : time) :
  strptime s = Ret t → hour t < 8 →
  time_to_minutes s = Ret (hour t + 24 + minute t + 24 * 60) ∧
  time_to_minutes s ≠ Ret (hour t * 60 + minute t + 24 * 60).
Proof.
  intros H Hh. rewrite (time_to_minutes_Ret s t H).
  destruct (Z.ltb_spec (hour t) 8); [|lia].
  split; [done|]. intros [=]. lia.
Qed.

(** C2. The code at the three times of the claim: 08:00 gives 480 and 23:30
    gives 1410, but 07:59 gives 7 + 24 + 59 + 1440 = 1530, where the claim
    and the docstring ("converts time to minutes") ask for 1919. *)
Theorem time_to_minutes_boundary :
  time_to_minutes "08:00:00" = Ret 480 ∧
  time_to_minutes "07:59:00" = Ret 1530 ∧
  time_to_minutes "23:30:00" = Ret 1410.
Proof. split_and!; reflexivity. Qed.

(** ** Interval trees *)

Section interval_tree.
Import IntervalTree.

Lemma overlaps_point_true (tree : IntervalTree.t) (p : Z) :
  overlaps_point tree p = true ↔ ∃ iv, iv ∈ tree ∧ begin iv ≤ p < end_ iv.
Proof.
  unfold overlaps_point, contains_point. rewrite existsb_exists.
  split; intros (iv & Hin & H); exists iv.
  - apply list_elem_of_In in Hin. split; [done|].
    apply andb_true_iff in H. lia.
  - split; [by apply list_elem_of_In|]. apply andb_true_iff. lia.
Qed.

Lemma elem_of_boundary_table (tree : IntervalTree.t) (p : Z) :
  p ∈ boundary_table tree ↔ ∃ iv, iv ∈ tree ∧ (p = begin iv ∨ p = end_ iv).
Proof.
  unfold boundary_table. rewrite list_elem_of_In, in_flat_map.
  split; intros (iv & Hin & H); exists iv.
  - apply list_elem_of_In in Hin. simpl in H.
    destruct H as [<-|[<-|[]]]; auto.
  - split; [by apply list_elem_of_In|]. simpl.
    destruct H as [->| ->]; auto.
Qed.

(** The two-stage search of [overlaps_range] finds an interval exactly when
    one of the tree meets [b, e). *)
Lemma overlaps_true (tree : IntervalTree.t) (b e : Z) :
  (∀ iv, iv ∈ tree → begin iv < end_ iv) →
  overlaps tree b e = true ↔
  b < e ∧ ∃ iv, iv ∈ tree ∧ overlap (span iv) (b, e).
Proof.
  intros Hnull. unfold overlaps, overlap, span. simpl.
  destruct tree as [|iv0 tree0] eqn:Etree.
  { split; [discriminate|]. intros (_ & iv & Hin & _). by apply elem_of_nil in Hin. }
  rewrite <- Etree in *. clear Etree iv0 tree0.
  destruct (Z.geb_spec b e) as [Hbe|Hbe].
  { split; [discriminate|lia]. }
  destruct (overlaps_point tree b) eqn:Hpoint.
  - apply overlaps_point_true in Hpoint as (iv & Hin & Hiv).
    split; [|done]. intros _. split; [lia|]. exists iv. split; [done|lia].
  - rewrite existsb_exists. split.
    + intros (p & Hp & Hov). apply list_elem_of_In, list_elem_of_filter in Hp as [Hp _].
      apply overlaps_point_true in Hov as (iv & Hin & Hiv).
      split; [lia|]. exists iv. split; [done|lia].
    + intros (_ & iv & Hin & Hiv).
      assert (b < begin iv) as Hb.
      { destruct (Z.lt_ge_cases b (begin iv)); [done|].
        assert (overlaps_point tree b = true) as Habs; [|congruence].
        apply overlaps_point_true. exists iv. split; [done|lia]. }
      exists (begin iv). split.
      * apply list_elem_of_In, list_elem_of_filter. split; [lia|].
        apply elem_of_boundary_table. eauto.
      * apply overlaps_point_true. exists iv. split; [done|].
        specialize (Hnull iv Hin). lia.
Qed.

Lemma overlaps_false (tree : IntervalTree.t) (b e : Z) :
  (∀ iv, iv ∈ tree → begin iv < end_ iv) →
  overlaps tree b e = false →
  b < e → ∀ iv, iv ∈ tree → ¬ overlap (span iv) (b, e).
Proof.
  intros Hnull Hov Hbe iv Hin Hiv.
  assert (overlaps tree b e = true) as Habs; [|congruence].
  apply overlaps_true; eauto.
Qed.

Lemma add_Ret (tree tree' : IntervalTree.t) (iv : Interval) :
  add tree iv = Ret tree' →
  (iv ∈ tree ∧ tree' = tree) ∨
  ((iv ∉ tree) ∧ begin iv < end_ iv ∧ tree' = tree ++ [iv]).
Proof.
  unfold add, is_null. case_bool_decide; [naive_solver|].
  destruct (Z.geb_spec (begin iv) (end_ iv)); [discriminate|].
  intros [= <-]. right. split_and!; [done|lia|done].
Qed.

Lemma add_null (tree : IntervalTree.t) (iv : Interval) :
  iv ∉ tree → end_ iv ≤ begin iv → add tree iv = Raise ValueError.
Proof.
  intros Hin Hnull. unfold add, is_null. rewrite bool_decide_eq_false_2 by done.
  destruct (Z.geb_spec (begin iv) (end_ iv)); [done|lia].
Qed.

(** Admitting an interval that meets no other keeps the tree disjoint. *)
Lemma disjoint_tree_snoc (tree : IntervalTree.t) (iv : Interval) :
  disjoint_tree tree →
  begin iv < end_ iv →
  (∀ iv', iv' ∈ tree → ¬ overlap (span iv') (span iv)) →
  disjoint_tree (tree ++ [iv]).
Proof.
  intros [Hnull Hdisj] Hiv Hnew. split.
  - intros iv' [Hin| ->%list_elem_of_singleton]%elem_of_app; auto.
  - intros iv1 iv2 [H1| ->%list_elem_of_singleton]%elem_of_app
                   [H2| ->%list_elem_of_singleton]%elem_of_app; auto.
    + right. intros [? ?]. apply (Hnew iv2 H2). split; done.
Qed.

Lemma disjoint_tree_nil : disjoint_tree [].
Proof. split; [intros ? []%elem_of_nil | intros ? ? []%elem_of_nil]. Qed.

End interval_tree.

(** ** The dict of trees *)

Section dict.
Import defaultdict.

Lemma lookup_None (d : defaultdict.t) (k : Z) :
  lookup d k = None ↔ k ∉ d.*1.
Proof.
  induction d as [|[k' v] d IH]; simpl.
  - split; [intros _ []%elem_of_nil|done].
  - rewrite not_elem_of_cons. destruct (Z.eqb_spec k' k) as [->|Hne].
    + split; [done|]. by intros [[] _].
    + rewrite IH. split; [done|]. by intros [_ ?].
Qed.

Lemma lookup_Some_elem_of (d : defaultdict.t) (k : Z) v :
  lookup d k = Some v → (k, v) ∈ d.
Proof.
  induction d as [|[k' v'] d IH]; simpl; [done|].
  destruct (Z.eqb_spec k' k) as [->|]; [intros [= ->]; left|right; auto].
Qed.

Lemma elem_of_lookup_Some (d : defaultdict.t) (k : Z) v :
  NoDup d.*1 → (k, v) ∈ d → lookup d k = Some v.
Proof.
  induction d as [|[k' v'] d IH]; simpl; [intros _ []%elem_of_nil|].
  intros [Hk Hd]%NoDup_cons [[= -> ->]|Hin]%elem_of_cons.
  - by rewrite Z.eqb_refl.
  - destruct (Z.eqb_spec k' k) as [->|]; [|auto].
    destruct Hk. apply list_elem_of_fmap. by exists (k, v).
Qed.

Lemma lookup_snoc (d : defaultdict.t) (k k' : Z) v :
  lookup (d ++ [(k, v)]) k' =
  match lookup d k' with
  | Some x => Some x
  | None => if k =? k' then Some v else None
  end.
Proof.
  induction d as [|[k0 v0] d IH]; simpl; [done|].
  destruct (k0 =? k'); done.
Qed.

Lemma lookup_mutate (d : defaultdict.t) (k k' : Z) v :
  lookup (mutate d k v) k' =
  if k =? k' then (λ _, v) <$> lookup d k else lookup d k'.
Proof.
  induction d as [|[k0 v0] d IH]; simpl.
  - by destruct (k =? k').
  - destruct (Z.eqb_spec k0 k) as [->|Hne]; simpl.
    + by destruct (k =? k').
    + rewrite IH. destruct (Z.eqb_spec k k') as [->|];
        destruct (Z.eqb_spec k0 k') as [->|]; simpl; done.
Qed.

Lemma mutate_keys (d : defaultdict.t) (k : Z) v : (mutate d k v).*1 = d.*1.
Proof.
  induction d as [|[k0 v0] d IH]; [done|]. cbn [mutate].
  destruct (k0 =? k); rewrite !fmap_cons; [done|]. by rewrite IH.
Qed.

Lemma getitem_spec (d d1 : defaultdict.t) (k : Z) tree :
  getitem d k = (tree, d1) →
  tree = default [] (lookup d k) ∧
  lookup d1 k = Some tree ∧
  (∀ k', k' ≠ k → lookup d1 k' = lookup d k') ∧
  (NoDup d.*1 → NoDup d1.*1).
Proof.
  unfold getitem. destruct (lookup d k) as [v|] eqn:E; intros [= <- <-].
  - done.
  - split_and!; [done|..].
    + by rewrite lookup_snoc, E, Z.eqb_refl.
    + intros k' Hk'. rewrite lookup_snoc.
      destruct (lookup d k'); [done|]. by destruct (Z.eqb_spec k k').
    + intros Hd. rewrite fmap_app. simpl. apply NoDup_app. split_and!; [done| |].
      * intros x Hx ->%list_elem_of_singleton. by apply lookup_None in E.
      * apply NoDup_singleton.
Qed.

End dict.

(** ** The admission loop *)

Section packer.
Import Timetable.

(** What one admission does to the dict, key by key. *)
Lemma place_Ret (d d' : defaultdict.t) (k b e i : Z) :
  place d k b e i = Ret d' →
  let tree := default [] (defaultdict.lookup d k) in
  (∀ k', k' ≠ k → defaultdict.lookup d' k' = defaultdict.lookup d k') ∧
  (NoDup d.*1 → NoDup d'.*1) ∧
  ((IntervalTree.overlaps tree b e = true ∧
    defaultdict.lookup d' k = Some tree) ∨
   (IntervalTree.overlaps tree b e = false ∧
    ∃ tree', IntervalTree.add tree (IntervalTree.Build_Interval b e i) = Ret tree' ∧
             defaultdict.lookup d' k = Some tree')).
Proof.
  unfold place. destruct (defaultdict.getitem d k) as [tree d1] eqn:E.
  apply getitem_spec in E as (-> & Hk & Hother & Hnodup).
  destruct (IntervalTree.overlaps _ b e) eqn:Hov; simpl.
  - intros [= <-]. split_and!; [done..|]. left. done.
  - intros H. inv_bind H. injection H as <-. unfold IntervalTree.setitem in E.
    split_and!.
    + intros k' Hk'. rewrite lookup_mutate.
      destruct (Z.eqb_spec k k'); [congruence|auto].
    + by rewrite mutate_keys.
    + right. split; [done|]. exists x. split; [done|].
      by rewrite lookup_mutate, Z.eqb_refl, Hk.
Qed.

Lemma packed_nil : packed [] [].
Proof.
  split_and!; [constructor|done|].
  intros k iv (tree & H & _). done.
Qed.

Lemma packed_place (seen : list normalized) (d d' : defaultdict.t) act :
  packed seen d →
  place d (track_id act) (start act) (stop act) (nid act) = Ret d' →
  packed (seen ++ [act]) d'.
Proof.
  intros (Hkeys & Htrees & Hseen) H.
  apply place_Ret in H as (Hother & Hnodup & Hk). simpl in Hk.
  set (tree := default [] (defaultdict.lookup d (track_id act))) in *.
  assert (disjoint_tree tree) as Htree.
  { unfold tree. destruct (defaultdict.lookup d (track_id act)) eqn:E; simpl.
    - eauto.
    - apply disjoint_tree_nil. }
  assert (∀ iv, iv ∈ tree → stored d (track_id act) iv) as Hstored.
  { unfold tree, stored. intros iv.
    destruct (defaultdict.lookup d (track_id act)) eqn:E; simpl; [eauto|].
    intros []%elem_of_nil. }
  split_and!; [auto|..].
  - intros k t Ht. destruct (decide (k = track_id act)) as [->|Hne].
    + destruct Hk as [[_ Hk]|(Hov & tree' & Hadd & Hk)]; [congruence|].
      rewrite Hk in Ht. injection Ht as <-.
      apply add_Ret in Hadd as [[_ ->]|(_ & Hnull & ->)]; [done|].
      apply disjoint_tree_snoc; [done..|].
      intros iv' Hin. apply (overlaps_false tree); [apply Htree|done..].
    + rewrite Hother in Ht by done. eauto.
  - intros k iv (t & Ht & Hin). destruct (decide (k = track_id act)) as [->|Hne].
    + destruct Hk as [[_ Hk]|(Hov & tree' & Hadd & Hk)].
      * rewrite Hk in Ht. injection Ht as <-.
        destruct (Hseen _ _ (Hstored _ Hin)) as (a & ? & ? & ?).
        exists a. rewrite elem_of_app. auto.
      * rewrite Hk in Ht. injection Ht as <-.
        apply add_Ret in Hadd as [[_ ->]|(_ & Hnull & ->)].
        -- destruct (Hseen _ _ (Hstored _ Hin)) as (a & ? & ? & ?).
           exists a. rewrite elem_of_app. auto.
        -- apply elem_of_app in Hin as [Hin| ->%list_elem_of_singleton].
           ++ destruct (Hseen _ _ (Hstored _ Hin)) as (a & ? & ? & ?).
              exists a. rewrite elem_of_app. auto.
           ++ exists act. rewrite elem_of_app, list_elem_of_singleton. auto.
    + rewrite Hother in Ht by done.
      destruct (Hseen k iv) as (a & ? & ? & ?); [by exists t|].
      exists a. rewrite elem_of_app. auto.
Qed.

Lemma packed_pack_all (input seen : list normalized) (d d' : defaultdict.t) :
  packed seen d → pack_all input d = Ret d' → packed (seen ++ input) d'.
Proof.
  revert seen d. induction input as [|act input IH]; intros seen d Hd H; simpl in H.
  - injection H as <-. by rewrite app_nil_r.
  - inv_bind H. rewrite (cons_middle act seen input), (assoc_L (++)).
    apply (IH _ x); [|done]. by apply (packed_place _ d).
Qed.

(** What is stored stays stored: no statement removes an interval. *)
Lemma stored_place (d d' : defaultdict.t) (k b e i k0 : Z) iv :
  place d k b e i = Ret d' → stored d k0 iv → stored d' k0 iv.
Proof.
  intros H (t & Ht & Hin). apply place_Ret in H as (Hother & _ & Hk).
  destruct (decide (k0 = k)) as [->|Hne].
  - simpl in Hk. rewrite Ht in Hk. simpl in Hk.
    destruct Hk as [[_ Hk]|(_ & tree' & Hadd & Hk)]; [by exists t|].
    exists tree'. split; [done|].
    apply add_Ret in Hadd as [[_ ->]|(_ & _ & ->)]; [done|].
    apply elem_of_app. auto.
  - exists t. by rewrite Hother.
Qed.

Lemma stored_pack_all (input : list normalized) (d d' : defaultdict.t) k iv :
  pack_all input d = Ret d' → stored d k iv → stored d' k iv.
Proof.
  revert d. induction input as [|act input IH]; intros d H Hst; simpl in H.
  - by injection H as <-.
  - inv_bind H. eapply IH; [done|]. by eapply stored_place.
Qed.

(** The first activity meets an empty dict and is admitted. *)
Lemma place_first (d' : defaultdict.t) (k b e i : Z) :
  place [] k b e i = Ret d' →
  b < e ∧ stored d' k (IntervalTree.Build_Interval b e i).
Proof.
  intros H. apply place_Ret in H as (_ & _ & Hk). simpl in Hk.
  destruct Hk as [[? _]|(_ & tree' & Hadd & Hk)]; [done|].
  apply add_Ret in Hadd as [[[]%elem_of_nil _]|(_ & Hnull & ->)].
  split; [done|]. exists [IntervalTree.Build_Interval b e i].
  split; [done|]. by apply list_elem_of_singleton.
Qed.

(** The ids of the result are the data of the stored intervals. *)
Lemma elem_of_ordered_ids (d : defaultdict.t) (x : Z) :
  NoDup d.*1 →
  x ∈ ordered_ids d ↔ ∃ k iv, stored d k iv ∧ IntervalTree.data iv = x.
Proof.
  intros Hd. unfold ordered_ids, defaultdict.values, stored.
  rewrite list_elem_of_In, in_flat_map. split.
  - intros (tree & Htree & Hx).
    apply list_elem_of_In, list_elem_of_fmap in Htree as ([k t] & -> & Hkt).
    apply list_elem_of_In, list_elem_of_fmap in Hx as (iv & -> & Hiv).
    apply elem_of_sorted in Hiv. exists k, iv. split; [|done].
    exists t. split; [|done]. by apply elem_of_lookup_Some.
  - intros (k & iv & (t & Ht & Hiv) & <-). exists t. split.
    + apply list_elem_of_In, list_elem_of_fmap. exists (k, t).
      split; [done|]. by apply lookup_Some_elem_of.
    + apply list_elem_of_In, list_elem_of_fmap. exists iv.
      split; [done|]. by apply elem_of_sorted.
Qed.

End packer.

(** ** [optimum_timetable] is [pack_tracks] after normalization *)

Section normalization.
Import Timetable.

Lemma normalize_Ret (act : activity) (n : normalized) :
  normalize act = Ret n →
  nid n = id act ∧ track_id n = schedule_id act ∧
  interval act = Ret (start n, stop n).
Proof.
  unfold normalize, interval. intros H. inv_bind H. inv_bind H.
  injection H as <-. simpl. by rewrite E, E0.
Qed.

Lemma normalize_all_Ret (input : list activity) (ns : list normalized) :
  normalize_all input = Ret ns →
  Forall2 (λ act n, normalize act = Ret n) input ns.
Proof.
  revert ns. induction input as [|act input IH]; intros ns H; simpl in H.
  - injection H as <-. constructor.
  - inv_bind H. inv_bind H. injection H as <-. constructor; auto.
Qed.

Lemma place_all_Ret (input : list activity) (d d' : defaultdict.t) :
  place_all input d = Ret d' ↔
  ∃ ns, normalize_all input = Ret ns ∧ pack_all ns d = Ret d'.
Proof.
  revert d. induction input as [|act input IH]; intros d; simpl.
  - split; [intros [= <-]; by exists []|]. by intros (ns & [= <-] & H).
  - unfold normalize.
    destruct (time_to_minutes (start_time act)) as [b| |]; simpl;
      [|split; [done|by intros (? & ? & ?)]..].
    destruct (time_to_minutes (end_time act)) as [e| |]; simpl;
      [|split; [done|by intros (? & ? & ?)]..].
    split.
    + intros H. inv_bind H. apply IH in H as (ns & Hns & H).
      eexists. rewrite Hns. simpl. split; [done|]. simpl. by rewrite E.
    + intros (ns & Hns & H).
      destruct (normalize_all input) as [ns'| |]; simpl in Hns; try done.
      injection Hns as <-. simpl in H. inv_bind H. rewrite E. simpl.
      apply IH. eauto.
Qed.

Lemma optimum_timetable_Ret (input : list activity) (ids : list Z) :
  (optimum_timetable input).2 = Ret ids ↔
  ∃ ns, normalize_all input = Ret ns ∧ pack_tracks ns = Ret ids.
Proof.
  unfold optimum_timetable, pack_tracks. simpl. split.
  - intros H. inv_bind H. apply place_all_Ret in E as (ns & Hns & E).
    exists ns. by rewrite E.
  - intros (ns & Hns & H). inv_bind H.
    rewrite (proj2 (place_all_Ret input [] x)) by eauto. done.
Qed.

(** An id of the result is the id of an activity whose interval is stored
    under its schedule. *)
Lemma pack_tracks_selected (ns : list normalized) (ids : list Z) (x : Z) :
  pack_tracks ns = Ret ids →
  x ∈ ids →
  ∃ trees n, pack_all ns [] = Ret trees ∧ n ∈ ns ∧ nid n = x ∧
             stored trees (track_id n) (interval_of n).
Proof.
  unfold pack_tracks. intros H Hx. inv_bind H. injection H as <-.
  pose proof (packed_pack_all ns [] [] _ packed_nil E) as Hpacked.
  simpl in Hpacked. destruct Hpacked as (Hkeys & _ & Hseen).
  apply (elem_of_ordered_ids _ _ Hkeys) in Hx as (k & iv & Hst & <-).
  destruct (Hseen _ _ Hst) as (n & Hn & <- & <-).
  exists x0, n. done.
Qed.

Lemma NoDup_fmap_eq {A B} (f : A → B) (l : list A) (x y : A) :
  NoDup (f <$> l) → x ∈ l → y ∈ l → f x = f y → x = y.
Proof.
  intros Hl [i Hi]%list_elem_of_lookup [j Hj]%list_elem_of_lookup Hf.
  assert (i = j) as ->; [|congruence].
  apply (NoDup_lookup (f <$> l) i j (f x)); [done|..].
  - by rewrite list_lookup_fmap, Hi.
  - by rewrite list_lookup_fmap, Hj, Hf.
Qed.

(** With unique ids, two selected activities of one schedule do not
    overlap. *)
Lemma optimum_timetable_selected_disjoint (input : list activity)
    (ids : list Z) (a b : activity) :
  (optimum_timetable input).2 = Ret ids →
  NoDup (id <$> input) →
  a ∈ input → b ∈ input → id a ≠ id b →
  schedule_id a = schedule_id b →
  id a ∈ ids → id b ∈ ids →
  ¬ overlapping a b.
Proof.
  intros (ns & Hns & H)%optimum_timetable_Ret Hids Ha Hb Hab Hsched Haids Hbids.
  apply normalize_all_Ret in Hns.
  assert (∀ c, c ∈ input → id c ∈ ids →
            ∃ trees n, pack_all ns [] = Ret trees ∧ normalize c = Ret n ∧
                       stored trees (track_id n) (interval_of n)) as Hsel.
  { intros c Hc Hcids.
    destruct (pack_tracks_selected _ _ _ H Hcids) as (trees & n & Htrees & Hn & Hid & Hst).
    apply list_elem_of_lookup in Hn as [i Hi].
    destruct (Forall2_lookup_r _ _ _ _ _ Hns Hi) as (c' & Hc' & Hnorm).
    pose proof (normalize_Ret _ _ Hnorm) as (Hid' & _ & _).
    assert (c' = c) as ->.
    { apply (NoDup_fmap_eq id input); [done| |done|congruence].
      apply list_elem_of_lookup. eauto. }
    eauto. }
  destruct (Hsel a Ha Haids) as (trees & na & Htrees & Hna & Hsta).
  destruct (Hsel b Hb Hbids) as (trees' & nb & Htrees' & Hnb & Hstb).
  assert (trees' = trees) as -> by congruence.
  pose proof (normalize_Ret _ _ Hna) as (Hida & Hka & Hia).
  pose proof (normalize_Ret _ _ Hnb) as (Hidb & Hkb & Hib).
  pose proof (packed_pack_all ns [] [] _ packed_nil Htrees) as (_ & Hdisj & _).
  destruct Hsta as (ta & Hta & Hina). destruct Hstb as (tb & Htb & Hinb).
  assert (tb = ta) as -> by congruence.
  destruct (Hdisj _ _ Hta) as [_ Hpair].
  destruct (Hpair _ _ Hina Hinb) as [Heq|Hno].
  - destruct Hab. rewrite <- Hida, <- Hidb.
    by apply (f_equal IntervalTree.data) in Heq.
  - intros (x & y & Hx & Hy & Hov). apply Hno.
    rewrite Hia in Hx. rewrite Hib in Hy. by injection Hx as <-; injection Hy as <-.
Qed.

End normalization.

(** ** When the packer returns *)

Section returns.
Import Timetable.

Lemma place_returns (d : defaultdict.t) (k b e i : Z) :
  b < e → ∃ d', place d k b e i = Ret d'.
Proof.
  intros Hbe. unfold place. destruct (defaultdict.getitem d k) as [tree d1].
  destruct (IntervalTree.overlaps tree b e); simpl; [eauto|].
  unfold IntervalTree.setitem, IntervalTree.add, IntervalTree.is_null. simpl.
  case_bool_decide; simpl; [eauto|].
  destruct (Z.geb_spec b e); [lia|]. simpl. eauto.
Qed.

(** [optimum_timetable] returns a list of ids on every input whose times are
    well formed and whose normalized intervals are proper. *)
Lemma optimum_timetable_returns (input : list activity) :
  (∀ act, act ∈ input → ∃ x, interval act = Ret x ∧ x.1 < x.2) →
  ∃ ids, (optimum_timetable input).2 = Ret ids.
Proof.
  intros Hinput. unfold optimum_timetable. cbn [snd].
  assert (∀ d, ∃ d', place_all input d = Ret d') as Hall.
  { induction input as [|act input IH]; intros d; simpl; [eauto|].
    destruct (Hinput act) as ([b e] & Hx & Hbe); [left|].
    unfold interval in Hx. inv_bind Hx. inv_bind Hx. injection Hx as -> ->.
    rewrite E, E0. simpl in *.
    destruct (place_returns d (schedule_id act) b e (id act) Hbe) as [d1 ->].
    simpl. apply IH. intros act' Hact'. apply Hinput. by right. }
  destruct (Hall []) as [d' ->]. simpl. eauto.
Qed.

(** It raises on an activity that ends before it starts: the tree refuses
    the null interval. *)
Lemma optimum_timetable_null_interval :
  (optimum_timetable
     [ {| id := 1; schedule_id := 1;
          start_time := "10:00:00"; end_time := "09:00:00" |} ]).2
  = Raise ValueError.
Proof. reflexivity. Qed.

(** So it does on an activity from 00:30 to 01:00: [time_to_minutes] puts
    its start at 1494 and its end at 1465. *)
Lemma optimum_timetable_after_midnight :
  (optimum_timetable
     [ {| id := 1; schedule_id := 1;
          start_time := "00:30:00"; end_time := "01:00:00" |} ]).2
  = Raise ValueError.
Proof. reflexivity. Qed.

(** The order in which Python iterates over the set of a tree does not
    matter: a disjoint tree has one sorted form. *)
Lemma sorted_begin_unique (tree tree' : IntervalTree.t) :
  disjoint_tree tree → tree' ≡ₚ tree →
  Py.sorted IntervalTree.begin tree' = Py.sorted IntervalTree.begin tree.
Proof.
  intros [Hnull Hdisj] Hperm.
  apply (StronglySorted_unique_strong
           (λ a b, IntervalTree.begin a ≤ IntervalTree.begin b)).
  - intros x y Hx%elem_of_sorted Hy%elem_of_sorted Hxy Hyx.
    rewrite Hperm in Hx.
    destruct (Hdisj x y Hx Hy) as [|Hno]; [done|].
    destruct Hno. pose proof (Hnull x Hx). pose proof (Hnull y Hy).
    unfold overlap, span. simpl. lia.
  - apply sorted_StronglySorted.
  - apply sorted_StronglySorted.
  - by rewrite !sorted_Permutation.
Qed.

End returns.

(** ** The greedy packer: the claims *)

Section greedy_claims.
Import Timetable.

Ltac by_compute := apply (bool_decide_unpack _); vm_compute; exact I.

(** On the intervals that the function itself computes with
    [time_to_minutes]: whenever [optimum_timetable] returns, two different
    activities of the input whose ids are both in the result and that belong
    to the same schedule have intervals that do not overlap.  Ids are the
    unique identifiers of the data model. *)
Theorem optimum_timetable_no_overlap (input : list activity) (ids : list Z)
    (i j : nat) (a b : activity) :
  (optimum_timetable input).2 = Ret ids →
  NoDup (id <$> input) →
  input !! i = Some a → input !! j = Some b → i ≠ j →
  schedule_id a = schedule_id b →
  id a ∈ ids → id b ∈ ids →
  ¬ overlapping a b.
Proof.
  intros H Hids Ha Hb Hij. apply (optimum_timetable_selected_disjoint input); try done.
  - apply list_elem_of_lookup. eauto.
  - apply list_elem_of_lookup. eauto.
  - intros Heq. apply Hij. apply (NoDup_lookup (id <$> input) i j (id a)); [done|..].
    + by rewrite list_lookup_fmap, Ha.
    + by rewrite list_lookup_fmap, Hb, Heq.
Qed.

Lemma optimum_timetable_no_overlap_witness : ¬ overlapping opening concert.
Proof.
  apply (optimum_timetable_no_overlap morning [1; 3] 0 2).
  - reflexivity.
  - by_compute.
  - reflexivity.
  - reflexivity.
  - lia.
  - reflexivity.
  - by_compute.
  - by_compute.
Defined.

(** On the intervals that the function itself computes with
    [time_to_minutes]: whenever [optimum_timetable] returns, if A comes
    before B in the input, both belong to the same schedule and their
    intervals overlap, then B's id is not in the result when A's id is.  Ids
    are the unique identifiers of the data model. *)
Theorem optimum_timetable_priority (before between after : list activity)
    (a b : activity) (ids : list Z) :
  (optimum_timetable (before ++ a :: between ++ b :: after)).2 = Ret ids →
  NoDup (id <$> before ++ a :: between ++ b :: after) →
  schedule_id a = schedule_id b →
  overlapping a b →
  id a ∈ ids → id b ∉ ids.
Proof.
  intros H Hids Hsched Hov Ha Hb.
  apply (optimum_timetable_selected_disjoint _ _ a b H); try done.
  - rewrite elem_of_app, elem_of_cons. auto.
  - rewrite elem_of_app, elem_of_cons, elem_of_app, elem_of_cons. auto.
  - rewrite fmap_app, fmap_cons, fmap_app, fmap_cons in Hids.
    apply NoDup_app in Hids as (_ & _ & Hids).
    apply NoDup_cons in Hids as [Hids _]. intros Heq. apply Hids.
    rewrite elem_of_app, elem_of_cons. auto.
Qed.

Lemma optimum_timetable_priority_witness : id workshop ∉ [1; 3].
Proof.
  apply (optimum_timetable_priority [] [] [concert] opening workshop).
  - reflexivity.
  - by_compute.
  - reflexivity.
  - exists (480, 540), (510, 570). split; [reflexivity|]. split; [reflexivity|].
    unfold overlap. simpl. lia.
  - by_compute.
Defined.

(** C9. Whenever [optimum_timetable] returns on a non-empty input, the id of
    the first activity is in the result; and it does return, with that id in
    the result, on every input whose time strings are well formed and whose
    normalized intervals are proper. *)
Theorem optimum_timetable_first (act : activity) (input : list activity) :
  (∀ ids, (optimum_timetable (act :: input)).2 = Ret ids → id act ∈ ids) ∧
  ((∀ a, a ∈ act :: input → ∃ x, interval a = Ret x ∧ x.1 < x.2) →
   ∃ ids, (optimum_timetable (act :: input)).2 = Ret ids ∧ id act ∈ ids).
Proof.
  assert (∀ ids, (optimum_timetable (act :: input)).2 = Ret ids → id act ∈ ids)
    as Hfirst.
  { intros ids (ns & Hns & H)%optimum_timetable_Ret.
    simpl in Hns. inv_bind Hns. inv_bind Hns. injection Hns as <-.
    apply normalize_Ret in E as (Hid & Hk & _).
    unfold pack_tracks in H. inv_bind H. injection H as <-.
    pose proof (packed_pack_all _ [] [] _ packed_nil E) as (Hkeys & _ & _).
    apply (elem_of_ordered_ids _ _ Hkeys).
    simpl in E. inv_bind E. apply place_first in E1 as [_ Hst].
    exists (track_id x), (interval_of x). split; [|done].
    by apply (stored_pack_all x0 x2). }
  split; [done|]. intros Hvalid.
  destruct (optimum_timetable_returns _ Hvalid) as [ids Hids]. eauto.
Qed.

Lemma optimum_timetable_first_witness :
  ∃ ids, (optimum_timetable morning).2 = Ret ids ∧ id opening ∈ ids.
Proof.
  apply (optimum_timetable_first opening [workshop; concert]).
  intros a Ha.
  apply elem_of_cons in Ha as [->|Ha]; [by exists (480, 540)|].
  apply elem_of_cons in Ha as [->|Ha]; [by exists (510, 570)|].
  apply list_elem_of_singleton in Ha as ->. by exists (540, 600).
Defined.

(** *** On the timeline of the specification *)

(** From 08:00 on, [time_to_minutes] is the normalizer of the
    specification. *)
Lemma interval_daytime (act : activity) :
  daytime act → Spec.interval act = interval act.
Proof.
  intros (t & t' & Hs & He & Ht & Ht').
  unfold Spec.interval, Spec.time_normalizer, Spec.minutes, interval.
  rewrite (time_to_minutes_day _ _ Hs Ht), (time_to_minutes_day _ _ He Ht'), Hs, He.
  simpl. destruct (Z.ltb_spec (hour t) 8); [lia|].
  by destruct (Z.ltb_spec (hour t') 8); [lia|].
Qed.

Lemma overlapping_daytime (a b : activity) :
  daytime a → daytime b → Spec.overlapping a b → overlapping a b.
Proof.
  intros Ha Hb. unfold Spec.overlapping, overlapping.
  by rewrite !interval_daytime.
Qed.

Lemma NoDup_fmap_lookup_ne {A B} (f : A → B) (l : list A) (i j : nat) (x y : A) :
  NoDup (f <$> l) → l !! i = Some x → l !! j = Some y → i ≠ j → f x ≠ f y.
Proof.
  intros Hl Hx Hy Hij Heq. apply Hij.
  apply (NoDup_lookup (f <$> l) i j (f x)); [done|..].
  - by rewrite list_lookup_fmap, Hx.
  - by rewrite list_lookup_fmap, Hy, Heq.
Qed.

(** Between activities from 08:00 on, no overlap on the timeline of the
    specification: whenever [optimum_timetable] returns, two different
    activities of the input whose times are all from 08:00 on, whose ids are
    both in the result and that belong to the same schedule occupy intervals
    of that timeline that do not overlap. *)
Theorem optimum_timetable_no_overlap_day (input : list activity) (ids : list Z)
    (i j : nat) (a b : activity) :
  (optimum_timetable input).2 = Ret ids →
  NoDup (id <$> input) →
  input !! i = Some a → input !! j = Some b → i ≠ j →
  schedule_id a = schedule_id b →
  daytime a → daytime b →
  id a ∈ ids → id b ∈ ids →
  ¬ Spec.overlapping a b.
Proof.
  intros H Hids Ha Hb Hij Hsched Hda Hdb Haids Hbids Hov.
  apply (optimum_timetable_selected_disjoint input ids a b); try done.
  - apply list_elem_of_lookup. eauto.
  - apply list_elem_of_lookup. eauto.
  - by apply (NoDup_fmap_lookup_ne id input i j).
  - by apply overlapping_daytime.
Qed.

Lemma optimum_timetable_no_overlap_day_witness :
  ¬ Spec.overlapping opening concert.
Proof.
  apply (optimum_timetable_no_overlap_day morning [1; 3] 0 2).
  - reflexivity.
  - by_compute.
  - reflexivity.
  - reflexivity.
  - lia.
  - reflexivity.
  - exists {| hour := 8; minute := 0; second := 0 |},
           {| hour := 9; minute := 0; second := 0 |}.
    split_and!; [reflexivity|reflexivity|simpl; lia|simpl; lia].
  - exists {| hour := 9; minute := 0; second := 0 |},
           {| hour := 10; minute := 0; second := 0 |}.
    split_and!; [reflexivity|reflexivity|simpl; lia|simpl; lia].
  - by_compute.
  - by_compute.
Defined.

(** Between activities from 08:00 on, priority on the timeline of the
    specification: whenever [optimum_timetable] returns, if A comes before B
    in the input, the times of both are from 08:00 on, both belong to the
    same schedule and their intervals on that timeline overlap, then B's id
    is not in the result when A's id is. *)
Theorem optimum_timetable_priority_day (before between after : list activity)
    (a b : activity) (ids : list Z) :
  (optimum_timetable (before ++ a :: between ++ b :: after)).2 = Ret ids →
  NoDup (id <$> before ++ a :: between ++ b :: after) →
  schedule_id a = schedule_id b →
  daytime a → daytime b →
  Spec.overlapping a b →
  id a ∈ ids → id b ∉ ids.
Proof.
  intros H Hids Hsched Hda Hdb Hov Ha Hb.
  apply (optimum_timetable_selected_disjoint _ _ a b H); try done.
  - rewrite elem_of_app, elem_of_cons. auto.
  - rewrite elem_of_app, elem_of_cons, elem_of_app, elem_of_cons. auto.
  - apply (NoDup_fmap_lookup_ne id _ (length before)
             (length before + S (length between)) a b Hids).
    + by rewrite list_lookup_middle.
    + rewrite lookup_app_r by lia.
      replace (length before + S (length between) - length before)%nat
        with (S (length between)) by lia.
      simpl. by rewrite list_lookup_middle.
    + lia.
  - by apply overlapping_daytime.
Qed.

Lemma optimum_timetable_priority_day_witness : id workshop ∉ [1; 3].
Proof.
  apply (optimum_timetable_priority_day [] [] [concert] opening workshop).
  - reflexivity.
  - by_compute.
  - reflexivity.
  - exists {| hour := 8; minute := 0; second := 0 |},
           {| hour := 9; minute := 0; second := 0 |}.
    split_and!; [reflexivity|reflexivity|simpl; lia|simpl; lia].
  - exists {| hour := 8; minute := 30; second := 0 |},
           {| hour := 9; minute := 30; second := 0 |}.
    split_and!; [reflexivity|reflexivity|simpl; lia|simpl; lia].
  - exists (480, 540), (510, 570). split; [reflexivity|]. split; [reflexivity|].
    unfold overlap. simpl. lia.
  - by_compute.
Defined.

(** C5. On two activities of the night of one schedule, the second within
    the first on the clock, [optimum_timetable] returns both ids.  The
    intervals that [time_to_minutes] gives them, [1495, 1496) and
    [1466, 1486), do not overlap; the intervals that the two activities
    occupy on the timeline of the specification, [1530, 1590) and
    [1560, 1580), do.  So two selected activities of one schedule overlap,
    against the claim. *)
Theorem optimum_timetable_overlap :
  (optimum_timetable night).2 = Ret [2; 1] ∧
  schedule_id dj_set = schedule_id closing ∧
  interval dj_set = Ret (1495, 1496) ∧
  interval closing = Ret (1466, 1486) ∧
  Spec.interval dj_set = Ret (1530, 1590) ∧
  Spec.interval closing = Ret (1560, 1580) ∧
  Spec.overlapping dj_set closing.
Proof.
  split_and!; try reflexivity.
  exists (1530, 1590), (1560, 1580). split_and!; try reflexivity.
  unfold overlap. simpl. lia.
Qed.

(** C6. The claim fails on the same two activities: A, from 01:30 to 02:30,
    comes before B, from 02:00 to 02:20, in the input; their ids differ,
    both belong to schedule 1 and they overlap on the timeline of the
    specification; A's id is in the result, and so is B's. *)
Theorem optimum_timetable_later_selected :
  ∃ ids, (optimum_timetable night).2 = Ret ids ∧
         night !! 0%nat = Some dj_set ∧ night !! 1%nat = Some closing ∧
         NoDup (id <$> night) ∧
         schedule_id dj_set = schedule_id closing ∧
         Spec.overlapping dj_set closing ∧
         id dj_set ∈ ids ∧ id closing ∈ ids.
Proof.
  exists [2; 1]. split_and!; try reflexivity; try by_compute.
  exists (1530, 1590), (1560, 1580). split_and!; try reflexivity.
  unfold overlap. simpl. lia.
Qed.

End greedy_claims.

Section touching.
Import Timetable.

Lemma overlaps_eq_false (tree : IntervalTree.t) (b e : Z) :
  (∀ iv, iv ∈ tree → IntervalTree.begin iv < IntervalTree.end_ iv) →
  (∀ iv, iv ∈ tree → ¬ overlap (span iv) (b, e)) →
  IntervalTree.overlaps tree b e = false.
Proof.
  intros Hnull Hno. apply not_true_iff_false.
  rewrite overlaps_true by done. intros (_ & iv & Hin & Hov). by apply (Hno iv).
Qed.

Lemma pack_two (x y : normalized) :
  track_id x = track_id y →
  start x < stop x → start y < stop y →
  ¬ overlap (start x, stop x) (start y, stop y) →
  pack_tracks [x; y] =
  Ret (IntervalTree.data <$> Py.sorted IntervalTree.begin [interval_of x; interval_of y]).
Proof.
  intros Hk Hx Hy Hno. unfold pack_tracks. cbn [pack_all].
  assert (place [] (track_id x) (start x) (stop x) (nid x)
          = Ret [(track_id x, [interval_of x])]) as ->.
  { unfold place, IntervalTree.setitem, IntervalTree.add, IntervalTree.is_null.
    cbn -[Z.geb Z.eqb]. rewrite bool_decide_eq_false_2 by (intros []%elem_of_nil).
    destruct (Z.geb_spec (start x) (stop x)); [lia|].
    cbn -[Z.eqb]. by rewrite Z.eqb_refl. }
  cbn [mbind res_bind].
  assert (place [(track_id x, [interval_of x])]
            (track_id y) (start y) (stop y) (nid y)
          = Ret [(track_id x, [interval_of x; interval_of y])]) as ->.
  { unfold place, defaultdict.getitem. cbn [defaultdict.lookup].
    rewrite <- Hk, Z.eqb_refl.
    rewrite overlaps_eq_false; cycle 1.
    { by intros iv ->%list_elem_of_singleton. }
    { by intros iv ->%list_elem_of_singleton. }
    unfold IntervalTree.setitem, IntervalTree.add, IntervalTree.is_null.
    rewrite bool_decide_eq_false_2; cycle 1.
    { intros [=]%list_elem_of_singleton. unfold overlap in Hno. simpl in Hno. lia. }
    cbn -[Z.geb Z.eqb].
    destruct (Z.geb_spec (start y) (stop y)); [lia|].
    cbn -[Z.eqb]. by rewrite Z.eqb_refl. }
  cbn [mbind res_bind mret res_ret]. unfold ordered_ids. simpl flat_map.
  by rewrite app_nil_r.
Qed.

(** C7. Intervals are half-open: an interval that starts where an admitted
    one ends, or ends where it starts, passes the admission test, whichever
    of the two comes first; and on the scenario of the specification, three
    activities of one track over [0, 60), [30, 90) and [60, 120) in that
    order, the packer selects ids 1 and 3.  The same three from 08:00 on go
    through [optimum_timetable] with the same result. *)
Theorem pack_tracks_touching :
  (∀ k i j b m e, b < m → m < e →
     IntervalTree.overlaps [IntervalTree.Build_Interval b m i] m e = false ∧
     IntervalTree.overlaps [IntervalTree.Build_Interval m e j] b m = false ∧
     pack_tracks [Build_normalized i k b m; Build_normalized j k m e]
     = Ret [i; j] ∧
     pack_tracks [Build_normalized j k m e; Build_normalized i k b m]
     = Ret [i; j]) ∧
  pack_tracks scenario = Ret [1; 3] ∧
  (optimum_timetable morning).2 = Ret [1; 3].
Proof.
  split_and!; [|reflexivity..].
  intros k i j b m e Hbm Hme. split_and!.
  - apply overlaps_eq_false; intros iv ->%list_elem_of_singleton;
      unfold overlap; simpl; lia.
  - apply overlaps_eq_false; intros iv ->%list_elem_of_singleton;
      unfold overlap; simpl; lia.
  - rewrite pack_two by (unfold overlap; simpl; lia).
    cbn -[Z.leb]. destruct (Z.leb_spec b m); [done|lia].
  - rewrite pack_two by (unfold overlap; simpl; lia).
    cbn -[Z.leb]. destruct (Z.leb_spec m b); [lia|done].
Qed.

Lemma pack_tracks_touching_witness :
  pack_tracks [Build_normalized 1 1 0 60; Build_normalized 3 1 60 120]
  = Ret [1; 3].
Proof.
  refine (proj1 (proj2 (proj2 (proj1 pack_tracks_touching 1 1 3 0 60 120 _ _)))); lia.
Defined.

End touching.

(** ** The predecessor search *)

Section predecessor.
Import Weighted.

(** The loop rule of the binary search: an invariant [I l r best_idx] that
    both branches keep holds, with an empty window, at the index returned;
    and the loop returns within [r + 1 - l] rounds. *)
Lemma prev_loop_rule (I : Z → Z → Z → Prop) (activities : list activity)
    (start_time : Z) :
  (∀ l r best a, I l r best → l ≤ r →
     Py.getitem activities ((l + r) `div` 2) = Ret a →
     end_time a ≤ start_time →
     I ((l + r) `div` 2 + 1) r ((l + r) `div` 2)) →
  (∀ l r best a, I l r best → l ≤ r →
     Py.getitem activities ((l + r) `div` 2) = Ret a →
     start_time < end_time a →
     I l ((l + r) `div` 2 - 1) best) →
  ∀ (fuel : nat) l r best,
    0 ≤ l → r < Py.len activities → r + 1 - l ≤ Z.of_nat fuel →
    I l r best →
    ∃ j l' r', prev_loop fuel activities start_time l r best = Ret j ∧
               r' < l' ∧ I l' r' j.
Proof.
  intros Hle Hgt fuel. induction fuel as [|fuel IH]; intros l r best Hl Hr Hfuel HI.
  - simpl. destruct (Z.leb_spec l r); [lia|]. by exists best, l, r.
  - simpl. destruct (Z.leb_spec l r) as [Hlr|Hlr]; [|by exists best, l, r].
    assert (l ≤ (l + r) `div` 2 ≤ r) as Hmid.
    { split; [apply Z.div_le_lower_bound|apply Z.div_le_upper_bound]; lia. }
    destruct (getitem_in_range activities ((l + r) `div` 2)) as (a & Ha & _); [lia|].
    rewrite Ha. simpl. destruct (Z.leb_spec (end_time a) start_time).
    + apply IH; [lia..|]. by apply (Hle l r best a).
    + apply IH; [lia..|]. by apply (Hgt l r best a).
Qed.

(** On every list, sorted or not, the search returns, and what it returns
    is below [i]. *)
Lemma prev_range (activities : list activity) (i : Z) :
  0 ≤ i < Py.len activities →
  ∃ j, prev activities i = Ret j ∧ -1 ≤ j ≤ i - 1.
Proof.
  intros Hi. unfold prev.
  destruct (getitem_in_range activities i Hi) as (a & -> & _). simpl.
  destruct (prev_loop_rule (λ l r best, -1 ≤ best < l ∧ l ≤ r + 1 ∧ r < i)
              activities (start_time a)) with (fuel := Z.to_nat i) (l := 0)
              (r := i - 1) (best := -1)
    as (j & l' & r' & -> & Hexit & Hj).
  - intros l r best m Hinv Hlr _ _.
    assert (l ≤ (l + r) `div` 2 ≤ r) as Hmid.
    { split; [apply Z.div_le_lower_bound|apply Z.div_le_upper_bound]; lia. }
    lia.
  - intros l r best m Hinv Hlr _ _.
    assert (l ≤ (l + r) `div` 2 ≤ r) as Hmid.
    { split; [apply Z.div_le_lower_bound|apply Z.div_le_upper_bound]; lia. }
    lia.
  - lia.
  - lia.
  - lia.
  - lia.
  - exists j. split; [done|lia].
Qed.

(** On a list in ascending order of [end_time] the search returns the last
    index below [i] whose activity ends by the time the activity at [i]
    starts: everything up to [j] ends by then, everything after [j] ends
    later. *)
Lemma prev_sorted (activities : list activity) (i : Z) (a : activity) :
  ascending end_time activities →
  activities !! Z.to_nat i = Some a → 0 ≤ i →
  ∃ j, prev activities i = Ret j ∧ -1 ≤ j < i ∧
       (∀ k b, 0 ≤ k ≤ j → activities !! Z.to_nat k = Some b →
               end_time b ≤ start_time a) ∧
       (∀ k b, j < k < i → activities !! Z.to_nat k = Some b →
               start_time a < end_time b).
Proof.
  intros Hsorted Ha Hi0.
  assert (i < Py.len activities) as Hi.
  { apply lookup_lt_Some in Ha. unfold Py.len. lia. }
  unfold prev. rewrite (proj2 (getitem_Ret activities i a Hi0) Ha). simpl.
  destruct (prev_loop_rule
              (λ l r best,
                 best = l - 1 ∧ 0 ≤ l ≤ r + 1 ∧ r < i ∧
                 (∀ k b, 0 ≤ k < l → activities !! Z.to_nat k = Some b →
                         end_time b ≤ start_time a) ∧
                 (∀ k b, r < k < i → activities !! Z.to_nat k = Some b →
                         start_time a < end_time b))
              activities (start_time a)) with (fuel := Z.to_nat i) (l := 0)
              (r := i - 1) (best := -1)
    as (j & l' & r' & -> & Hexit & -> & Hl' & Hr' & Hbelow & Habove).
  - intros l r best m (-> & Hl & Hr & Hbelow & Habove) Hlr Hm Hend.
    assert (l ≤ (l + r) `div` 2 ≤ r) as Hmid.
    { split; [apply Z.div_le_lower_bound|apply Z.div_le_upper_bound]; lia. }
    split_and!; [lia..| |done].
    intros k b Hk Hb. etrans; [|exact Hend].
    apply getitem_Ret in Hm; [|lia].
    apply (Hsorted (Z.to_nat k) (Z.to_nat ((l + r) `div` 2))); [lia|done..].
  - intros l r best m (-> & Hl & Hr & Hbelow & Habove) Hlr Hm Hend.
    assert (l ≤ (l + r) `div` 2 ≤ r) as Hmid.
    { split; [apply Z.div_le_lower_bound|apply Z.div_le_upper_bound]; lia. }
    split_and!; [lia..|done|].
    intros k b Hk Hb. eapply Z.lt_le_trans; [exact Hend|].
    apply getitem_Ret in Hm; [|lia].
    apply (Hsorted (Z.to_nat ((l + r) `div` 2)) (Z.to_nat k)); [lia|done..].
  - lia.
  - lia.
  - lia.
  - split_and!; [lia..| |]; intros; lia.
  - exists (l' - 1). split; [done|]. split; [lia|]. split.
    + intros k b Hk Hb. apply (Hbelow k); [lia|done].
    + intros k b Hk Hb. apply (Habove k); [lia|done].
Qed.

(** C4. On a list in ascending order of [end_time], [prev] at an index [i]
    of the list returns an index [j] with [-1 <= j < i]; when [j] is not
    [-1] the activity at [j] ends no later than the activity at [i] starts,
    and every activity between [j] and [i] ends later than that: [j] is the
    largest index with the property, and [-1] means that there is none. *)
Theorem prev_spec (activities : list activity) (i : Z) (a : activity) :
  ascending end_time activities →
  Py.getitem activities i = Ret a → 0 ≤ i →
  ∃ j, prev activities i = Ret j ∧ -1 ≤ j < i ∧
       (0 ≤ j → ∃ b, Py.getitem activities j = Ret b ∧
                     end_time b ≤ start_time a) ∧
       (∀ k b, j < k < i → Py.getitem activities k = Ret b →
               start_time a < end_time b).
Proof.
  intros Hsorted Ha Hi0. pose proof Ha as Ha'. apply getitem_Ret in Ha'; [|done].
  destruct (prev_sorted activities i a Hsorted Ha' Hi0)
    as (j & Hj & Hrange & Hbelow & Habove).
  exists j. split; [done|]. split; [done|]. split.
  - intros Hj0. destruct (getitem_in_range activities j) as (b & Hb & Hb').
    { apply lookup_lt_Some in Ha'. unfold Py.len. lia. }
    exists b. split; [done|]. apply (Hbelow j); [lia|done].
  - intros k b Hk Hb. apply (Habove k); [done|]. apply getitem_Ret; [lia|done].
Qed.

Lemma prev_spec_witness :
  ∃ j, prev programme 2 = Ret j ∧ -1 ≤ j < 2 ∧
       (0 ≤ j → ∃ b, Py.getitem programme j = Ret b ∧
                     end_time b ≤ start_time show) ∧
       (∀ k b, j < k < 2 → Py.getitem programme k = Ret b →
               start_time show < end_time b).
Proof.
  apply (prev_spec programme 2 show).
  - apply StronglySorted_ascending. repeat constructor; simpl; lia.
  - reflexivity.
  - lia.
Defined.

End predecessor.

(** ** The table *)

Section table.
Import Weighted.

Lemma getitem_last {A} (l : list A) (x : A) :
  l !! (length l - 1)%nat = Some x → Py.getitem l (-1) = Ret x.
Proof.
  intros Hx. pose proof (lookup_lt_Some _ _ _ Hx) as Hlen.
  unfold Py.getitem, Py.len. simpl.
  destruct (Z.leb_spec 0 (-1 + Z.of_nat (length l))); [|lia].
  destruct (Z.ltb_spec (-1 + Z.of_nat (length l)) (Z.of_nat (length l))); [|lia].
  simpl. replace (Z.to_nat (-1 + Z.of_nat (length l))) with (length l - 1)%nat by lia.
  by rewrite Hx.
Qed.

Lemma setitem_Ret {A} (l : list A) (i : Z) (x : A) :
  0 ≤ i < Py.len l → Py.setitem l i x = Ret (<[Z.to_nat i := x]> l).
Proof.
  intros Hi. unfold Py.setitem.
  destruct (Z.ltb_spec i 0); [lia|].
  destruct (Z.leb_spec 0 i); [|lia].
  destruct (Z.ltb_spec i (Py.len l)); [done|lia].
Qed.

Lemma entry_lookup (dp : list Z) (i : Z) (x : Z) :
  0 ≤ i → dp !! Z.to_nat i = Some x → entry dp i = x.
Proof.
  intros Hi Hx. unfold entry. destruct (Z.ltb_spec i 0); [lia|]. by rewrite Hx.
Qed.

Lemma entry_agree (dp dp' : list Z) (i k : Z) :
  (∀ j, 0 ≤ j < k → dp' !! Z.to_nat j = dp !! Z.to_nat j) →
  i < k → entry dp' i = entry dp i.
Proof.
  intros Hagree Hi. unfold entry. destruct (Z.ltb_spec i 0); [done|].
  by rewrite Hagree by lia.
Qed.

(** The first loop from index [k] on: it returns, it leaves the entries
    below [k] alone, and every entry from [k] on satisfies the recurrence
    with [-1] for the missing entry before the first.  The entries from
    [k] on still hold the initial [-1] when the loop gets there. *)
Lemma fill_from (activities : list activity) (m : nat) (k : Z) (dp : list Z) :
  0 ≤ k → k + Z.of_nat m = Py.len activities →
  length dp = length activities →
  (∀ j, k ≤ j < Py.len activities → dp !! Z.to_nat j = Some (-1)) →
  ∃ dp', fill activities (seqZ k (Z.of_nat m)) dp = Ret dp' ∧
         length dp' = length dp ∧
         (∀ j, 0 ≤ j < k → dp' !! Z.to_nat j = dp !! Z.to_nat j) ∧
         (∀ i, k ≤ i < Py.len activities → recurrence (-1) activities dp' i).
Proof.
  revert k dp. induction m as [|m IH]; intros k dp Hk Hm Hlen Hinit.
  - rewrite seqZ_nil by lia. simpl. exists dp. split_and!; [done..|]. intros; lia.
  - rewrite seqZ_cons by lia. cbn [fill].
    destruct (prev_range activities k) as (p & Hp & Hpk); [lia|]. rewrite Hp.
    cbn [mbind res_bind].
    assert (∃ before, Py.getitem dp (k - 1) = Ret before ∧
                      before = if k =? 0 then -1 else entry dp (k - 1))
      as (before & Hbefore & Hbefore_eq).
    { destruct (Z.eqb_spec k 0) as [->|Hk0].
      - exists (-1). split; [|done]. apply getitem_last.
        rewrite <- (Hinit (Py.len activities - 1)) by lia.
        f_equal. unfold Py.len. lia.
      - destruct (getitem_in_range dp (k - 1)) as (x & Hx & Hx');
          [unfold Py.len in *; lia|].
        exists x. split; [done|]. symmetry. apply entry_lookup; [lia|done]. }
    rewrite Hbefore. cbn [mbind res_bind].
    destruct (getitem_in_range activities k) as (a & Ha & _); [lia|].
    rewrite Ha. cbn [mbind res_bind].
    assert (∃ at_p, (if p >=? 0 then Py.getitem dp p else Ret 0) = Ret at_p ∧
                    at_p = entry dp p) as (at_p & Hat_p & Hat_p_eq).
    { destruct (Z.geb_spec p 0).
      - destruct (getitem_in_range dp p) as (x & Hx & Hx');
          [unfold Py.len in *; lia|].
        exists x. split; [done|]. symmetry. apply entry_lookup; [lia|done].
      - exists 0. split; [done|]. unfold entry.
        destruct (Z.ltb_spec p 0); [done|lia]. }
    rewrite Hat_p. cbn [mbind res_bind].
    rewrite setitem_Ret by (unfold Py.len in *; lia). cbn [mbind res_bind].
    set (v := Z.max before (value a + at_p)).
    destruct (IH (Z.succ k) (<[Z.to_nat k := v]> dp)) as (dp' & Hfill & Hlen' & Hkeep & Hrec).
    + lia.
    + lia.
    + by rewrite length_insert.
    + intros j Hj. rewrite list_lookup_insert_ne by lia. apply Hinit. lia.
    + replace (Z.pred (Z.of_nat (S m))) with (Z.of_nat m) by lia.
      exists dp'. split; [done|]. split; [by rewrite Hlen', length_insert|].
      split.
      * intros j Hj. rewrite Hkeep by lia. apply list_lookup_insert_ne. lia.
      * intros i Hi. destruct (decide (i = k)) as [->|Hne]; [|apply Hrec; lia].
        exists p, a. split; [done|]. split; [done|].
        assert (dp' !! Z.to_nat k = Some v) as Hv.
        { rewrite Hkeep by lia. apply list_lookup_insert_eq. unfold Py.len in *. lia. }
        apply getitem_Ret; [lia|]. rewrite Hv. f_equal. unfold v. f_equal.
        -- rewrite Hbefore_eq. destruct (Z.eqb_spec k 0); [done|].
           symmetry. etrans; [apply (entry_agree (<[Z.to_nat k:=v]> dp) dp' _ (Z.succ k)); [done|lia]|].
           unfold entry. destruct (Z.ltb_spec (k - 1) 0); [done|].
           by rewrite list_lookup_insert_ne by lia.
        -- rewrite Hat_p_eq. f_equal.
           symmetry. etrans; [apply (entry_agree (<[Z.to_nat k:=v]> dp) dp' _ (Z.succ k)); [done|lia]|].
           unfold entry. destruct (Z.ltb_spec p 0); [done|].
           by rewrite list_lookup_insert_ne by lia.
Qed.

(** The table of any list: it is as long as the list and the recurrence
    holds at every index, with [-1] before the first entry. *)
Lemma dp_table_Ret (activities : list activity) :
  ∃ dp, dp_table activities = Ret dp ∧ length dp = length activities ∧
        ∀ i, 0 ≤ i < Py.len activities → recurrence (-1) activities dp i.
Proof.
  unfold dp_table.
  destruct (fill_from activities (length activities) 0
              (replicate (length activities) (-1)))
    as (dp & Hfill & Hlen & _ & Hrec).
  - lia.
  - done.
  - apply length_replicate.
  - intros j Hj. apply lookup_replicate_2. unfold Py.len in Hj. lia.
  - exists dp. split; [done|]. split; [|done]. by rewrite Hlen, length_replicate.
Qed.

End table.

(** ** Backtracking *)

Section backtracking.
Import Weighted.

(** From index [i], [i + 1] rounds are enough, whatever the table holds:
    both branches continue strictly below [i]. *)
Lemma backtrack_returns (activities : list activity) (dp : list Z)
    (fuel : nat) (i : Z) (ids : list Z) :
  length dp = length activities →
  i < Py.len activities → i + 1 ≤ Z.of_nat fuel →
  ∃ out, backtrack fuel activities dp i ids = Ret out.
Proof.
  intros Hlen. revert i ids.
  induction fuel as [|fuel IH]; intros i ids Hi Hfuel; simpl.
  - destruct (Z.geb_spec i 0); [lia|]. eauto.
  - destruct (Z.geb_spec i 0) as [Hi0|]; [|eauto].
    assert (∃ taken : bool,
              (if i =? 0 then Ret true
               else Py.getitem dp i ≫= λ x, Py.getitem dp (i - 1) ≫= λ y,
                    Ret (negb (x =? y))) = Ret taken) as [taken ->].
    { destruct (Z.eqb_spec i 0); [eauto|].
      destruct (getitem_in_range dp i) as (x & -> & _); [unfold Py.len in *; lia|].
      destruct (getitem_in_range dp (i - 1)) as (y & -> & _); [unfold Py.len in *; lia|].
      simpl. eauto. }
    cbn [mbind res_bind]. destruct taken.
    + destruct (getitem_in_range activities i) as (a & -> & _); [lia|].
      destruct (prev_range activities i) as (p & -> & Hp); [lia|].
      cbn [mbind res_bind]. apply IH; lia.
    + apply IH; lia.
Qed.

(** The table of [weighted_scheduling] is the table of the sorted list. *)
Lemma weighted_scheduling_eq (activities : list activity) :
  weighted_scheduling activities =
  let sorted := Py.sorted end_time activities in
  (sorted,
   dp ← dp_table sorted;
   backtrack (Z.to_nat (Py.len activities)) sorted dp (Py.len activities - 1) []).
Proof. unfold weighted_scheduling, dp_table, Py.len. by rewrite sorted_length. Qed.

(** The empty list has no index: the loop does not start. *)
Lemma weighted_scheduling_nil : weighted_scheduling [] = ([], Ret []).
Proof. reflexivity. Qed.

(** [weighted_scheduling] returns on every list. *)
Lemma weighted_scheduling_returns (activities : list activity) :
  ∃ ids, (weighted_scheduling activities).2 = Ret ids.
Proof.
  rewrite weighted_scheduling_eq. cbn [snd].
  destruct (dp_table_Ret (Py.sorted end_time activities)) as (dp & -> & Hlen & _).
  cbn [mbind res_bind]. apply backtrack_returns.
  - done.
  - unfold Py.len. rewrite sorted_length. lia.
  - lia.
Qed.

(** C10. On every list, [prev] at an index [i] of the list returns an index
    between [-1] and [i - 1]; so the backtracking loop started at [i] ends
    within [i + 1] rounds on any table as long as the list, and
    [weighted_scheduling] returns a list of ids. *)
Theorem backtrack_terminates (activities : list activity) :
  (∀ i, 0 ≤ i < Py.len activities →
        ∃ j, prev activities i = Ret j ∧ -1 ≤ j ≤ i - 1) ∧
  (∀ dp i ids, length dp = length activities → i < Py.len activities →
     ∃ out, backtrack (Z.to_nat (i + 1)) activities dp i ids = Ret out) ∧
  (∃ ids, (weighted_scheduling activities).2 = Ret ids).
Proof.
  split_and!.
  - apply prev_range.
  - intros dp i ids Hlen Hi. apply backtrack_returns; [done|lia..].
  - apply weighted_scheduling_returns.
Qed.

Lemma backtrack_terminates_witness :
  ∃ j, prev programme 2 = Ret j ∧ -1 ≤ j ≤ 2 - 1.
Proof.
  refine (proj1 (backtrack_terminates programme) 2 _).
  unfold Py.len. simpl. lia.
Defined.

End backtracking.

(** ** Optimality of the weighted scheduler

    On int values: where the activity that ends first has a value that is
    not negative, and every interval is proper, the table holds the optimum
    of every prefix and the backtracking returns a set that attains it. *)

Section optimality.
Import Weighted.

Lemma overlap_sym (x y : Z * Z) : overlap x y → overlap y x.
Proof. unfold overlap. lia. Qed.

Lemma non_overlapping_nil : non_overlapping [].
Proof. intros i j a b _ H. done. Qed.

Lemma non_overlapping_cons (a : activity) (l : list activity) :
  non_overlapping (a :: l) ↔
  (∀ b, b ∈ l → ¬ overlap (span_of a) (span_of b)) ∧ non_overlapping l.
Proof.
  split.
  - intros H. split.
    + intros b [j Hj]%list_elem_of_lookup. by apply (H 0%nat (S j)).
    + intros i j x y Hij Hx Hy. apply (H (S i) (S j)); [lia|done..].
  - intros [Ha Hl] [|i] [|j] x y Hij Hx Hy; simpl in *; try done.
    + injection Hx as <-. apply Ha, list_elem_of_lookup. eauto.
    + injection Hy as <-. intros Hov%overlap_sym. revert Hov.
      apply Ha, list_elem_of_lookup. eauto.
    + apply (Hl i j); [lia|done..].
Qed.

Lemma non_overlapping_Permutation (l l' : list activity) :
  l ≡ₚ l' → non_overlapping l → non_overlapping l'.
Proof.
  induction 1 as [|a l l' Hperm IH|a b l|l l' l'' _ IH _ IH']; [done|..|auto].
  - rewrite !non_overlapping_cons. intros [Ha Hl]. split; [|auto].
    intros b Hb. apply Ha. by rewrite Hperm.
  - rewrite !non_overlapping_cons. intros (Hb & Ha & Hl).
    split_and!; [|..|done].
    + intros x [->|Hx]%elem_of_cons; [|auto].
      intros Hov%overlap_sym. revert Hov. apply Hb. left.
    + intros x Hx. apply Hb. by right.
Qed.

Lemma non_overlapping_app_l (l l' : list activity) :
  non_overlapping (l ++ l') → non_overlapping l.
Proof.
  intros H i j a b Hij Ha Hb.
  apply (H i j); [done|by apply lookup_app_l_Some..].
Qed.

Lemma total_app (l l' : list activity) : total (l ++ l') = total l + total l'.
Proof. induction l as [|a l IH]; simpl; lia. Qed.

Lemma total_Permutation (l l' : list activity) : l ≡ₚ l' → total l = total l'.
Proof. induction 1; simpl; lia. Qed.

Lemma sublist_app_avoid {A} (s l1 l2 : list A) :
  s `sublist_of` l1 ++ l2 → (∀ x, x ∈ s → x ∈ l2 → False) → s `sublist_of` l1.
Proof.
  intros (s1 & s2 & -> & H1 & H2)%sublist_app_r Havoid.
  destruct s2 as [|x s2]; [by rewrite app_nil_r|].
  destruct (Havoid x).
  - apply elem_of_app. right. left.
  - apply (elem_of_sublist (x :: s2)); [left|done].
Qed.

(** What the recurrence and the search say together at an index. *)
Lemma table_step (activities : list activity) (dp : list Z) (i : Z) :
  ascending end_time activities →
  recurrence (-1) activities dp i → 0 ≤ i →
  ∃ p a, activities !! Z.to_nat i = Some a ∧
         prev activities i = Ret p ∧ -1 ≤ p < i ∧
         (∀ k b, 0 ≤ k ≤ p → activities !! Z.to_nat k = Some b →
                 end_time b ≤ start_time a) ∧
         (∀ k b, p < k < i → activities !! Z.to_nat k = Some b →
                 start_time a < end_time b) ∧
         Py.getitem dp i =
         Ret (Z.max (if i =? 0 then -1 else entry dp (i - 1))
                    (value a + entry dp p)).
Proof.
  intros Hsorted (p & a & Hp & Ha & Hdp) Hi.
  apply getitem_Ret in Ha; [|done].
  destruct (prev_sorted activities i a Hsorted Ha Hi) as (p' & Hp' & Hrange & Hle & Hgt).
  assert (p' = p) as -> by congruence.
  exists p, a. done.
Qed.

Section sorted_table.
Context (activities : list activity) (dp : list Z).
Context (Hsorted : ascending end_time activities).
Context (Hproper : proper activities).
Context (Hfirst : ∀ a, activities !! 0%nat = Some a → 0 ≤ value a).
Context (Hlen : length dp = length activities).
Context (Hrec : ∀ i, 0 ≤ i < Py.len activities → recurrence (-1) activities dp i).

(** No non-overlapping set drawn from the first [k] activities is worth
    more than the entry at [k - 1]. *)
Lemma table_upper_bound (k : nat) (s : list activity) :
  (k ≤ length activities)%nat →
  s `sublist_of` take k activities →
  non_overlapping s →
  total s ≤ entry dp (Z.of_nat k - 1).
Proof.
  revert s. induction k as [k IH] using lt_wf_ind. intros s Hk Hs Hno.
  destruct k as [|k].
  { apply sublist_nil_r in Hs as ->. done. }
  destruct (table_step activities dp (Z.of_nat k) Hsorted) as
    (p & a & Ha & _ & Hp & Hbelow & Habove & Hdp); [apply Hrec; unfold Py.len; lia|lia|].
  rewrite Nat2Z.id in Ha.
  apply getitem_Ret in Hdp; [|lia]. apply entry_lookup in Hdp; [|lia].
  replace (Z.of_nat (S k) - 1) with (Z.of_nat k) by lia. rewrite Hdp.
  rewrite (take_S_r _ _ _ Ha) in Hs.
  apply sublist_app_r in Hs as (s1 & s2 & -> & Hs1 & Hs2).
  rewrite total_app.
  apply sublist_cons_r in Hs2 as [->%sublist_nil_r|(s2' & -> & ->%sublist_nil_r)].
  - simpl. rewrite Z.add_0_r.
    assert (total s1 ≤ entry dp (Z.of_nat k - 1)) as Hs1le.
    { apply IH; [lia|lia|done|]. by apply non_overlapping_app_l in Hno. }
    destruct (Z.eqb_spec (Z.of_nat k) 0) as [Hk0|Hk0]; [|lia].
    assert (k = 0%nat) as -> by lia.
    assert (p = -1) as -> by lia.
    specialize (Hfirst a Ha). unfold entry in *. simpl in *. lia.
  - simpl. rewrite Z.add_0_r.
    assert (total s1 ≤ entry dp p) as Hs1le; [|lia].
    replace p with (Z.of_nat (Z.to_nat (p + 1)) - 1) by lia.
    apply IH; [lia|lia| |by apply non_overlapping_app_l in Hno].
    rewrite <- (take_drop (Z.to_nat (p + 1)) (take k activities)) in Hs1.
    rewrite take_take in Hs1.
    replace (Z.to_nat (p + 1) `min` k)%nat with (Z.to_nat (p + 1)) in Hs1 by lia.
    apply (sublist_app_avoid _ _ _ Hs1).
    intros x [jx Hjx]%list_elem_of_lookup [j Hj]%list_elem_of_lookup.
    rewrite lookup_drop in Hj. apply lookup_take_Some in Hj as [Hj Hjk].
    apply (Hno jx (length s1) x a).
    + apply lookup_lt_Some in Hjx. lia.
    + by apply lookup_app_l_Some.
    + by rewrite list_lookup_middle.
    + assert (start_time a < end_time x) as Hax.
      { apply (Habove (Z.of_nat (Z.to_nat (p + 1) + j))); [lia|].
        by rewrite Nat2Z.id. }
      assert (end_time x ≤ end_time a) as Hxa.
      { apply (Hsorted (Z.to_nat (p + 1) + j)%nat k); [lia|done..]. }
      assert (start_time x < end_time x) as Hx.
      { apply Hproper, list_elem_of_lookup. eauto. }
      unfold overlap, span_of. simpl. lia.
Qed.

(** The backtracking from index [i] appends the ids of a set of activities
    drawn from the first [i + 1], in descending order of index, that do not
    overlap and are worth the entry at [i]. *)
Lemma backtrack_attains (fuel : nat) (i : Z) (ids : list Z) :
  -1 ≤ i < Py.len activities → i + 1 ≤ Z.of_nat fuel →
  ∃ sel, backtrack fuel activities dp i ids = Ret (ids ++ (id <$> sel)) ∧
         reverse sel `sublist_of` take (Z.to_nat (i + 1)) activities ∧
         non_overlapping sel ∧
         total sel = entry dp i.
Proof.
  revert i ids. induction fuel as [|fuel IH]; intros i ids Hi Hfuel.
  { assert (i = -1) as -> by lia. exists []. simpl.
    rewrite app_nil_r. split_and!; [done|done|apply non_overlapping_nil|done]. }
  destruct (decide (i = -1)) as [->|Hi1].
  { exists []. simpl.
    rewrite app_nil_r. split_and!; [done|done|apply non_overlapping_nil|done]. }
  destruct (table_step activities dp i Hsorted) as
    (p & a & Ha & Hprev & Hp & Hbelow & Habove & Hdp); [apply Hrec; lia|lia|].
  pose proof Hdp as Hentry.
  apply getitem_Ret in Hentry; [|lia]. apply entry_lookup in Hentry; [|lia].
  cbn [backtrack]. destruct (Z.geb_spec i 0); [|lia].
  assert (∀ sel', reverse sel' `sublist_of` take (Z.to_nat (p + 1)) activities →
                  non_overlapping sel' →
                  reverse (a :: sel') `sublist_of` take (Z.to_nat (i + 1)) activities ∧
                  non_overlapping (a :: sel')) as Htake.
  { intros sel' Hsub Hno. split.
    - rewrite reverse_cons. replace (Z.to_nat (i + 1)) with (S (Z.to_nat i)) by lia.
      rewrite (take_S_r _ _ _ Ha). apply sublist_app; [|done].
      etrans; [exact Hsub|].
      rewrite <- (take_drop (Z.to_nat (p + 1)) (take (Z.to_nat i) activities)).
      rewrite take_take.
      replace (Z.to_nat (p + 1) `min` Z.to_nat i)%nat with (Z.to_nat (p + 1)) by lia.
      by apply sublist_inserts_r.
    - apply non_overlapping_cons. split; [|done].
      intros b Hb.
      assert (b ∈ take (Z.to_nat (p + 1)) activities) as [j Hj]%list_elem_of_lookup.
      { apply (elem_of_sublist (reverse sel')); [|done]. by apply elem_of_reverse. }
      apply lookup_take_Some in Hj as [Hj Hjp].
      assert (end_time b ≤ start_time a) as Hba.
      { apply (Hbelow (Z.of_nat j)); [lia|]. by rewrite Nat2Z.id. }
      unfold overlap, span_of. simpl. lia. }
  destruct (Z.eqb_spec i 0) as [->|Hi0].
  - cbn [mbind res_bind]. change (Z.to_nat 0) with 0%nat in Ha.
    rewrite (proj2 (getitem_Ret activities 0 a (Z.le_refl 0)) Ha), Hprev.
    cbn [mbind res_bind].
    destruct (IH p (ids ++ [id a])) as (sel' & -> & Hsub & Hno & Htotal); [lia..|].
    exists (a :: sel'). rewrite <- (assoc_L (++)).
    split; [done|]. destruct (Htake sel' Hsub Hno) as [? ?].
    split; [done|]. split; [done|]. simpl. rewrite Htotal, Hentry.
    assert (p = -1) as -> by lia. specialize (Hfirst a Ha).
    unfold entry. simpl. lia.
  - destruct (getitem_in_range dp (i - 1)) as (y & Hy & Hy'); [unfold Py.len in *; lia|].
    rewrite Hdp, Hy. cbn [mbind res_bind].
    apply entry_lookup in Hy'; [|lia]. rewrite Hy' in Hentry |- *.
    destruct (Z.eqb_spec (Z.max y (value a + entry dp p)) y) as [Heq|Hne]; simpl.
    + destruct (IH (i - 1) ids) as (sel & -> & Hsub & Hno & Htotal); [lia..|].
      exists sel. split; [done|]. split; [|split; [done|lia]].
      etrans; [exact Hsub|]. replace (i - 1 + 1) with i by lia.
      replace (Z.to_nat (i + 1)) with (S (Z.to_nat i)) by lia.
      rewrite (take_S_r _ _ _ Ha). by apply sublist_inserts_r.
    + rewrite (proj2 (getitem_Ret activities i a ltac:(lia)) Ha), Hprev.
      cbn [mbind res_bind].
      destruct (IH p (ids ++ [id a])) as (sel' & -> & Hsub & Hno & Htotal); [lia..|].
      exists (a :: sel'). rewrite <- (assoc_L (++)).
      split; [done|]. destruct (Htake sel' Hsub Hno) as [? ?].
      split; [done|]. split; [done|]. simpl. rewrite Htotal. lia.
Qed.

End sorted_table.

(** With proper intervals and a first-ending activity whose value is not
    negative, the ids returned are those of a non-overlapping subset of the
    input, and no non-overlapping subset of the input is worth more. *)
Lemma weighted_scheduling_optimal (activities : list activity) :
  proper activities →
  (∀ a, Py.sorted end_time activities !! 0%nat = Some a → 0 ≤ value a) →
  ∃ sel, (weighted_scheduling activities).2 = Ret (id <$> sel) ∧
         sel ⊆+ activities ∧
         non_overlapping sel ∧
         ∀ s, s ⊆+ activities → non_overlapping s → total s ≤ total sel.
Proof.
  intros Hproper Hfirst. rewrite weighted_scheduling_eq. cbn [snd].
  set (sorted := Py.sorted end_time activities) in *.
  assert (sorted ≡ₚ activities) as Hperm by apply sorted_Permutation.
  assert (length sorted = length activities) as Hlength by apply sorted_length.
  assert (proper sorted) as Hproper'.
  { intros a Ha. apply Hproper. by rewrite <- Hperm. }
  pose proof (sorted_ascending end_time activities) as Hsorted. fold sorted in Hsorted.
  destruct (dp_table_Ret sorted) as (dp & -> & Hlen & Hrec).
  cbn [mbind res_bind].
  destruct (backtrack_attains sorted dp Hsorted Hfirst Hlen Hrec
              (Z.to_nat (Py.len activities)) (Py.len activities - 1) [])
    as (sel & -> & Hsub & Hno & Htotal).
  { unfold Py.len. lia. }
  { lia. }
  rewrite take_ge in Hsub by (unfold Py.len; lia).
  exists sel. split; [done|]. split.
  { rewrite <- Hperm, <- (reverse_Permutation sel). by apply sublist_submseteq. }
  split; [done|].
  intros s Hs Hs_no. rewrite <- Hperm in Hs.
  apply submseteq_sublist_r in Hs as (s' & Hs' & Hsub').
  rewrite (total_Permutation _ _ Hs'), Htotal.
  replace (Py.len activities - 1) with (Z.of_nat (length sorted) - 1)
    by (unfold Py.len; lia).
  apply (table_upper_bound sorted dp Hsorted Hproper' Hfirst Hlen Hrec); [done| |].
  - by rewrite take_ge.
  - by apply (non_overlapping_Permutation s).
Qed.

(** With unique ids, the activities whose ids are returned are the set that
    the backtracking chose. *)
Lemma selected_Permutation (activities sel : list activity) :
  NoDup (id <$> activities) → sel ⊆+ activities →
  selected activities (id <$> sel) ≡ₚ sel.
Proof.
  intros Hids Hsel. pose proof (NoDup_fmap_1 _ _ Hids) as Hnodup.
  apply NoDup_Permutation.
  - by apply NoDup_filter.
  - destruct (submseteq_Permutation _ _ Hsel) as [k Hk].
    rewrite Hk in Hnodup. by apply NoDup_app in Hnodup as [? _].
  - intros x. unfold selected. rewrite list_elem_of_filter, list_elem_of_fmap. split.
    + intros [(y & Hxy & Hy) Hx].
      assert (y = x) as <-; [|done].
      apply (NoDup_fmap_eq id activities); [done| |done..].
      by apply (elem_of_submseteq sel).
    + intros Hx. split; [by exists x|]. by apply (elem_of_submseteq sel).
Qed.

(** The property of the docstring, where it holds: int values, none of
    them negative, unique ids and proper intervals.  (On float values it
    fails, [weighted_scheduling_float_absorbed].) *)
Lemma weighted_scheduling_maximum (activities : list activity) :
  NoDup (id <$> activities) →
  proper activities →
  (∀ a, a ∈ activities → 0 ≤ value a) →
  ∃ ids, (weighted_scheduling activities).2 = Ret ids ∧
         non_overlapping (selected activities ids) ∧
         ∀ s, s ⊆+ activities → non_overlapping s →
              total s ≤ total (selected activities ids).
Proof.
  intros Hids Hproper Hvalue.
  destruct (weighted_scheduling_optimal activities Hproper)
    as (sel & Hret & Hsel & Hno & Hmax).
  { intros a Ha. apply Hvalue. rewrite <- (sorted_Permutation end_time).
    apply list_elem_of_lookup. eauto. }
  pose proof (selected_Permutation activities sel Hids Hsel) as Hperm.
  exists (id <$> sel). split; [done|]. split.
  - by apply (non_overlapping_Permutation sel).
  - intros s Hs Hs_no. rewrite (total_Permutation _ _ Hperm). auto.
Qed.

(** On the activity of negative value the property fails: the empty set is
    worth more than the set returned. *)
Lemma weighted_scheduling_not_maximum :
  ¬ (∀ s, s ⊆+ [debt] → non_overlapping s → total s ≤ total (selected [debt] [1])).
Proof.
  intros H. specialize (H [] (submseteq_nil_l _) non_overlapping_nil).
  vm_compute in H. by apply H.
Qed.

(** Proper intervals are needed: an activity over the empty interval
    [8, 8) overlaps nothing, yet the search counts it as a conflict of
    [3, 8), and only one of the two is returned. *)
Lemma weighted_scheduling_empty_interval :
  (weighted_scheduling
     [ {| id := 1; start_time := 8; end_time := 8; value := 10 |};
       {| id := 2; start_time := 3; end_time := 8; value := 10 |} ]).2
  = Ret [1].
Proof. reflexivity. Qed.

(** The scenario of the specification: the first and the third activity,
    worth 10 together, and the ids come out in descending order of end
    time. *)
Lemma weighted_scheduling_programme :
  (weighted_scheduling programme).2 = Ret [3; 1].
Proof. reflexivity. Qed.

End optimality.

(** ** Float values *)

Section float_values.
Import PrimFloat WeightedFloat.

(** Int values are needed for the optimum: on float values [1e16 + 1.0]
    rounds to [1e16].  The table of three activities one after the other,
    worth 1e16, 1.0 and 1.0, stays at 1e16 and only the first activity is
    returned, although the three do not overlap and the sum of the three
    values, 1.0 + 1.0 + 1e16, is greater than 1e16. *)
Lemma weighted_scheduling_float_absorbed :
  dp_table lineup = Ret [1e16%float; 1e16%float; 1e16%float] ∧
  (weighted_scheduling lineup).2 = Ret [1] ∧
  add 1e16%float 1%float = 1e16%float ∧
  ltb 1e16%float (add (add 1%float 1%float) 1e16%float) = true.
Proof. split_and!; reflexivity. Qed.

End float_values.

(** ** The weighted scheduler: the claims *)

Section weighted_claims.
Import Weighted.

(** The recurrence of the claim, with 0 before the first entry, holds at
    every index but the first, and at the first too when the activity that
    ends first has a value that is not negative. *)
Lemma recurrence_claimed (activities : list activity) (dp : list Z) (i : Z) :
  recurrence (-1) activities dp i →
  i ≠ 0 ∨ (∃ a, Py.getitem activities 0 = Ret a ∧ 0 ≤ value a) →
  recurrence 0 activities dp i.
Proof.
  intros (p & a & Hp & Ha & Hdp) Hi. exists p, a. split; [done|]. split; [done|].
  rewrite Hdp. destruct (Z.eqb_spec i 0) as [->|]; [|done].
  destruct Hi as [|(a' & Ha' & Hvalue)]; [done|].
  assert (a' = a) as -> by congruence.
  assert (0 < Py.len activities) as Hlen.
  { apply getitem_Ret, lookup_lt_Some in Ha; unfold Py.len; lia. }
  destruct (prev_range activities 0) as (p' & Hp' & Hrange); [lia|].
  assert (p = -1) as -> by (rewrite Hp in Hp'; injection Hp' as <-; lia).
  unfold entry. simpl. f_equal. lia.
Qed.

(** At the first index of that table the recurrence of the claim fails. *)
Lemma recurrence_negative_first : ¬ recurrence 0 [debt] [-1] 0.
Proof.
  intros (p & a & Hp & Ha & Hdp).
  injection Hp as <-. injection Ha as <-. by injection Hdp.
Qed.

(** C3. The table of a single activity of value -5: the recurrence of the
    claim gives [max 0 (-5) = 0] for the first entry, the code stores
    [-1]. *)
Theorem dp_table_negative_first :
  dp_table [debt] = Ret [-1] ∧ Z.max 0 (value debt) = 0.
Proof. split; reflexivity. Qed.

(** C1. On a single activity of value -5 the scheduler returns its id: the
    returned set is worth -5, the empty set is worth 0. *)
Theorem weighted_scheduling_negative :
  (weighted_scheduling [debt]).2 = Ret [1] ∧
  selected [debt] [1] = [debt] ∧
  total (selected [debt] [1]) = -5 ∧
  total [] = 0.
Proof. split_and!; reflexivity. Qed.

(** The caller's list [show; talk] is [talk; show] at return. *)
Lemma weighted_scheduling_reorders :
  (weighted_scheduling [show; talk]).1 ≠ [show; talk].
Proof. discriminate. Qed.

(** C8. [optimum_timetable] leaves its argument list as it was.
    [weighted_scheduling] leaves every activity as it was but sorts the
    argument list in place: at return the list is the stable sort by
    [end_time] of the list at the call, that is a permutation of it, in
    ascending order of [end_time], in which activities that end together
    keep their order. *)
Theorem scheduling_frame (input : list Timetable.activity)
    (activities : list activity) (e : Z) :
  (Timetable.optimum_timetable input).1 = input ∧
  (weighted_scheduling activities).1 = Py.sorted end_time activities ∧
  (weighted_scheduling activities).1 ≡ₚ activities ∧
  ascending end_time (weighted_scheduling activities).1 ∧
  filter (λ a, end_time a = e) (weighted_scheduling activities).1
  = filter (λ a, end_time a = e) activities.
Proof.
  split_and!.
  - done.
  - done.
  - apply sorted_Permutation.
  - apply sorted_ascending.
  - apply sorted_stable.
Qed.

(** A list that is in ascending order of [end_time] at the call is
    unchanged at return. *)
Lemma weighted_scheduling_sorted_frame (activities : list activity) :
  StronglySorted (λ a b, end_time a ≤ end_time b) activities →
  (weighted_scheduling activities).1 = activities.
Proof. intros H. by apply sorted_id. Qed.

End weighted_claims.

(** ** The greedy packer: errors *)

Section packer_errors.
Import Timetable.

Lemma field_outcome (bound : Z) (s : string) :
  (∃ v, field bound s = Ret v) ∨ field bound s = Raise ValueError.
Proof.
  destruct s as [|a [|b [|c s]]]; simpl; auto.
  - destruct (is_digit a); eauto.
  - destruct (is_digit a && is_digit b); auto.
    destruct (10 * digit a + digit b <=? bound); eauto.
Qed.

Lemma time_to_minutes_outcome (s : string) :
  (∃ m, time_to_minutes s = Ret m) ∨ time_to_minutes s = Raise ValueError.
Proof.
  unfold time_to_minutes, strptime.
  destruct (split_colon s) as [|h [|m [|sec [|]]]]; auto.
  destruct (field_outcome 23 h) as [[? ->]| ->]; [|auto].
  destruct (field_outcome 59 m) as [[? ->]| ->]; [|auto].
  destruct (field_outcome 59 sec) as [[? ->]| ->]; [|auto].
  simpl. destruct (_ <? 8); eauto.
Qed.

Lemma place_outcome (d : defaultdict.t) (k b e i : Z) :
  (∃ d', place d k b e i = Ret d') ∨ place d k b e i = Raise ValueError.
Proof.
  unfold place. destruct (defaultdict.getitem d k) as [tree d1].
  destruct (IntervalTree.overlaps tree b e); simpl; [eauto|].
  unfold IntervalTree.setitem, IntervalTree.add.
  case_bool_decide; simpl; [eauto|].
  destruct (IntervalTree.is_null _); simpl; eauto.
Qed.

Lemma place_all_outcome (input : list activity) (d : defaultdict.t) :
  (∃ d', place_all input d = Ret d') ∨ place_all input d = Raise ValueError.
Proof.
  revert d. induction input as [|act input IH]; intros d; simpl; [eauto|].
  destruct (time_to_minutes_outcome (start_time act)) as [[b ->]| ->]; [|auto].
  destruct (time_to_minutes_outcome (end_time act)) as [[e ->]| ->]; [|auto].
  simpl. destruct (place_outcome d (schedule_id act) b e (id act)) as [[d1 ->]| ->];
    [|auto].
  simpl. apply IH.
Qed.

(** An interval that is placed without an exception is proper. *)
Lemma place_proper (seen : list normalized) (d d' : defaultdict.t) (k b e i : Z) :
  packed seen d → place d k b e i = Ret d' → b < e.
Proof.
  intros (_ & Htrees & _) H. apply place_Ret in H as (_ & _ & Hk). simpl in Hk.
  set (tree := default [] (defaultdict.lookup d k)) in *.
  assert (∀ iv, iv ∈ tree → IntervalTree.begin iv < IntervalTree.end_ iv) as Hnull.
  { unfold tree. destruct (defaultdict.lookup d k) eqn:E; simpl.
    - by apply (Htrees k).
    - by intros iv []%elem_of_nil. }
  destruct Hk as [[Hov _]|(_ & tree' & Hadd & _)].
  - by apply overlaps_true in Hov as [? _].
  - apply add_Ret in Hadd as [[Hin _]|(_ & ? & _)]; [|done].
    apply (Hnull _ Hin).
Qed.

Lemma pack_all_proper (ns seen : list normalized) (d d' : defaultdict.t) :
  packed seen d → pack_all ns d = Ret d' →
  ∀ n, n ∈ ns → start n < stop n.
Proof.
  revert seen d. induction ns as [|n ns IH]; intros seen d Hd H n' Hn'.
  - by apply elem_of_nil in Hn'.
  - simpl in H. inv_bind H. apply elem_of_cons in Hn' as [->|Hn'].
    + by apply (place_proper seen d x (track_id n) _ _ (nid n)).
    + apply (IH (seen ++ [n]) x); [|done..]. by apply (packed_place _ d).
Qed.

(** On activities that have the four fields and whose time strings are
    ASCII, [optimum_timetable] returns a list of ids exactly when every
    activity of the input is well formed; on any other such input it raises
    [ValueError]. *)
Theorem optimum_timetable_raises (input : list activity) :
  ascii_times input →
  ((∀ act, act ∈ input → well_formed act) ∧
   ∃ ids, (optimum_timetable input).2 = Ret ids) ∨
  (¬ (∀ act, act ∈ input → well_formed act) ∧
   (optimum_timetable input).2 = Raise ValueError).
Proof.
  intros _.
  assert ((∃ ids, (optimum_timetable input).2 = Ret ids) ∨
          (optimum_timetable input).2 = Raise ValueError) as [[ids Hids]|Hraise].
  { unfold optimum_timetable. cbn [snd].
    destruct (place_all_outcome input []) as [[d' ->]| ->]; simpl; eauto. }
  - left. split; [|eauto].
    apply optimum_timetable_Ret in Hids as (ns & Hns & H).
    unfold pack_tracks in H. inv_bind H.
    apply normalize_all_Ret in Hns.
    intros act [j Hj]%list_elem_of_lookup.
    destruct (Forall2_lookup_l _ _ _ _ _ Hns Hj) as (n & Hn & Hnorm).
    apply normalize_Ret in Hnorm as (_ & _ & Hint).
    exists (start n, stop n). split; [done|]. simpl.
    apply (pack_all_proper ns [] [] x packed_nil E).
    apply list_elem_of_lookup. eauto.
  - right. split; [|done]. intros Hall.
    destruct (optimum_timetable_returns input Hall) as [ids Hids]. congruence.
Qed.

Lemma optimum_timetable_raises_witness :
  ((∀ act, act ∈ morning → well_formed act) ∧
   ∃ ids, (optimum_timetable morning).2 = Ret ids) ∨
  (¬ (∀ act, act ∈ morning → well_formed act) ∧
   (optimum_timetable morning).2 = Raise ValueError).
Proof.
  apply (optimum_timetable_raises morning).
  repeat constructor.
Defined.

End packer_errors.

(** ** The greedy packer: what is selected *)

Section packer_selection.
Import Timetable.

Lemma all_stored_mutate (d : defaultdict.t) (k : Z)
    (tree extra : IntervalTree.t) :
  defaultdict.lookup d k = Some tree →
  all_stored (defaultdict.mutate d k (tree ++ extra)) ≡ₚ all_stored d ++ extra.
Proof.
  unfold all_stored. induction d as [|[k' t] d IH]; simpl; [done|].
  destruct (Z.eqb_spec k' k) as [->|Hne].
  - intros [= ->]. simpl. rewrite <- !(assoc_L (++)). f_equiv. apply Permutation_app_comm.
  - intros Hk. simpl. rewrite IH by done. by rewrite (assoc_L (++)).
Qed.

(** One admission stores the interval or leaves the dict as it was. *)
Lemma place_all_stored (d d' : defaultdict.t) (k b e i : Z) :
  place d k b e i = Ret d' →
  all_stored d' ≡ₚ all_stored d ∨
  all_stored d' ≡ₚ all_stored d ++ [IntervalTree.Build_Interval b e i].
Proof.
  unfold place. destruct (defaultdict.getitem d k) as [tree d1] eqn:Hget.
  assert (all_stored d1 = all_stored d ∧ defaultdict.lookup d1 k = Some tree)
    as [Hd1 Hk].
  { pose proof (getitem_spec _ _ _ _ Hget) as (_ & Hk & _). split; [|done].
    unfold defaultdict.getitem in Hget.
    destruct (defaultdict.lookup d k); injection Hget as <- <-; [done|].
    unfold all_stored. rewrite flat_map_app. simpl. by rewrite app_nil_r. }
  destruct (IntervalTree.overlaps tree b e); simpl.
  - intros [= <-]. left. by rewrite Hd1.
  - intros H. inv_bind H. injection H as <-.
    apply add_Ret in E as [[_ ->]|(_ & _ & ->)].
    + left. rewrite <- Hd1, <- (app_nil_r (all_stored d1)).
      rewrite <- (app_nil_r tree) at 1. by apply all_stored_mutate.
    + right. rewrite <- Hd1. by apply all_stored_mutate.
Qed.

Lemma pack_all_stored (ns : list normalized) (d d' : defaultdict.t) :
  pack_all ns d = Ret d' →
  ∃ sel, sel `sublist_of` ns ∧
         all_stored d' ≡ₚ all_stored d ++ (interval_of <$> sel).
Proof.
  revert d. induction ns as [|n ns IH]; intros d H; simpl in H.
  - injection H as <-. exists []. split; [done|]. by rewrite app_nil_r.
  - inv_bind H. destruct (IH _ H) as (sel & Hsel & Hperm).
    apply place_all_stored in E as [E|E].
    + exists sel. split; [by apply sublist_cons|]. by rewrite Hperm, E.
    + exists (n :: sel). split; [by apply sublist_skip|].
      rewrite Hperm, E, <- (assoc_L (++)). done.
Qed.

Lemma ordered_ids_stored (d : defaultdict.t) :
  ordered_ids d ≡ₚ IntervalTree.data <$> all_stored d.
Proof.
  unfold ordered_ids, all_stored, defaultdict.values.
  induction d as [|[k t] d IH]; simpl; [done|].
  rewrite fmap_app, IH. f_equiv. by rewrite sorted_Permutation.
Qed.

Lemma sublist_Forall2_r {A B} (R : A → B → Prop) (l : list A) (k k' : list B) :
  Forall2 R l k → k' `sublist_of` k →
  ∃ l', l' `sublist_of` l ∧ Forall2 R l' k'.
Proof.
  intros HR. revert k'. induction HR as [|x y l k Hxy HR IH]; intros k' Hk'.
  - apply sublist_nil_r in Hk' as ->. by exists [].
  - apply sublist_cons_r in Hk' as [Hk'|(k'' & -> & Hk'')].
    + destruct (IH _ Hk') as (l' & ? & ?). exists l'. split; [by apply sublist_cons|done].
    + destruct (IH _ Hk'') as (l' & ? & ?). exists (x :: l').
      split; [by apply sublist_skip|by constructor].
Qed.

(** The ids returned are, in some order, the ids of a subsequence of the
    input: no id is made up, and no activity is returned twice. *)
Theorem optimum_timetable_subsequence (input : list activity) (ids : list Z) :
  (optimum_timetable input).2 = Ret ids →
  ∃ sel, sel `sublist_of` input ∧ ids ≡ₚ id <$> sel.
Proof.
  intros (ns & Hns & H)%optimum_timetable_Ret.
  unfold pack_tracks in H. inv_bind H. injection H as <-.
  apply normalize_all_Ret in Hns.
  destruct (pack_all_stored _ _ _ E) as (sel_n & Hsub & Hperm).
  destruct (sublist_Forall2_r _ _ _ _ Hns Hsub) as (sel & Hsel & Hnorm).
  exists sel. split; [done|].
  rewrite ordered_ids_stored, Hperm. simpl. rewrite <- list_fmap_compose.
  assert ((IntervalTree.data ∘ interval_of) <$> sel_n = id <$> sel) as ->; [|done].
  clear Hsub Hsel Hperm.
  induction Hnorm as [|a n sel sel_n Han Hnorm IH]; [done|].
  rewrite !fmap_cons, IH. f_equal. apply normalize_Ret in Han as (Hid & _).
  exact Hid.
Qed.

Lemma optimum_timetable_subsequence_witness :
  ∃ sel, sel `sublist_of` morning ∧ [1; 3] ≡ₚ id <$> sel.
Proof. apply (optimum_timetable_subsequence morning [1; 3]). reflexivity. Defined.

Lemma covered_nil : covered [] [].
Proof. intros j n H. done. Qed.

Lemma covered_place (seen : list normalized) (d d' : defaultdict.t) n :
  packed seen d → covered seen d →
  place d (track_id n) (start n) (stop n) (nid n) = Ret d' →
  covered (seen ++ [n]) d'.
Proof.
  intros Hpacked Hcov H j n' Hj.
  destruct (decide (j < length seen)%nat) as [Hlt|Hge].
  - rewrite lookup_app_l in Hj by done.
    destruct (Hcov j n' Hj) as [Hst|(i & a & Hi & Ha & Hk & Hst & Hov)].
    + left. by eapply stored_place.
    + right. exists i, a. split_and!; [done| |done| |done].
      * by apply lookup_app_l_Some.
      * by eapply stored_place.
  - assert (j = length seen ∧ n' = n) as [-> ->].
    { rewrite lookup_app_r in Hj by lia.
      destruct (j - length seen)%nat as [|m] eqn:Hm; simpl in Hj; [|done].
      split; [lia|congruence]. }
    destruct Hpacked as (_ & Htrees & Hseen).
    pose proof H as Hplace.
    apply place_Ret in H as (_ & _ & Hk). simpl in Hk.
    destruct (defaultdict.lookup d (track_id n)) as [tree|] eqn:Hlookup; simpl in Hk.
    + destruct Hk as [[Hov Hk]|(_ & tree' & Hadd & Hk)].
      * apply overlaps_true in Hov as (_ & iv & Hin & Hov); [|by apply (Htrees (track_id n))].
        destruct (Hseen (track_id n) iv) as (a & [i Hi]%list_elem_of_lookup & Hka & <-);
          [by exists tree|].
        right. exists i, a. split_and!; [by apply lookup_lt_Some in Hi| |done| |done].
        -- by apply lookup_app_l_Some.
        -- by exists tree.
      * left. exists tree'. split; [done|].
        apply add_Ret in Hadd as [[? ->]|(_ & _ & ->)]; [done|].
        apply elem_of_app. right. by apply list_elem_of_singleton.
    + destruct Hk as [[Hov _]|(_ & tree' & Hadd & Hk)]; [done|].
      left. exists tree'. split; [done|].
      apply add_Ret in Hadd as [[? ->]|(_ & _ & ->)]; [done|].
      apply elem_of_app. right. by apply list_elem_of_singleton.
Qed.

Lemma covered_pack_all (ns seen : list normalized) (d d' : defaultdict.t) :
  packed seen d → covered seen d → pack_all ns d = Ret d' →
  covered (seen ++ ns) d'.
Proof.
  revert seen d. induction ns as [|n ns IH]; intros seen d Hpacked Hcov H; simpl in H.
  - injection H as <-. by rewrite app_nil_r.
  - inv_bind H. rewrite (cons_middle n seen ns), (assoc_L (++)).
    apply (IH _ x); [by apply (packed_place _ d)|by apply (covered_place _ d)|done].
Qed.

(** The selection is maximal in the order of priority: an activity whose id
    is not returned overlaps an activity of its schedule that comes before
    it in the input and whose id is returned. *)
Theorem optimum_timetable_maximal (input : list activity) (ids : list Z)
    (j : nat) (b : activity) :
  (optimum_timetable input).2 = Ret ids →
  input !! j = Some b →
  id b ∉ ids →
  ∃ (i : nat) (a : activity),
    (i < j)%nat ∧ input !! i = Some a ∧
    schedule_id a = schedule_id b ∧ id a ∈ ids ∧ overlapping a b.
Proof.
  intros (ns & Hns & H)%optimum_timetable_Ret Hb Hout.
  unfold pack_tracks in H. inv_bind H. injection H as <-.
  apply normalize_all_Ret in Hns.
  pose proof (packed_pack_all ns [] [] _ packed_nil E) as Hpacked. simpl in Hpacked.
  pose proof (covered_pack_all ns [] [] _ packed_nil covered_nil E) as Hcov.
  simpl in Hcov. destruct Hpacked as (Hkeys & _ & _).
  destruct (Forall2_lookup_l _ _ _ _ _ Hns Hb) as (n & Hn & Hnorm).
  apply normalize_Ret in Hnorm as (Hid & Hk & Hint).
  destruct (Hcov j n Hn) as [Hst|(i & a_n & Hi & Ha & Hka & Hst & Hov)].
  - destruct Hout. apply (elem_of_ordered_ids _ _ Hkeys).
    exists (track_id n), (interval_of n). done.
  - destruct (Forall2_lookup_r _ _ _ _ _ Hns Ha) as (a & Ha' & Hnorm).
    apply normalize_Ret in Hnorm as (Hida & Hka' & Hinta).
    exists i, a. split_and!; [done|done|congruence| |].
    + apply (elem_of_ordered_ids _ _ Hkeys).
      exists (track_id n), (interval_of a_n). done.
    + exists (start a_n, stop a_n), (start n, stop n). done.
Qed.

Lemma optimum_timetable_maximal_witness :
  ∃ (i : nat) (a : activity),
    (i < 1)%nat ∧ morning !! i = Some a ∧
    schedule_id a = schedule_id workshop ∧ id a ∈ [1; 3] ∧
    overlapping a workshop.
Proof.
  apply (optimum_timetable_maximal morning [1; 3] 1 workshop).
  - reflexivity.
  - reflexivity.
  - apply (bool_decide_unpack _). vm_compute. exact I.
Defined.

End packer_selection.

(** ** The greedy packer: schedules and order *)

Section packer_order.
Import Timetable.

Lemma place_keys (d d' : defaultdict.t) (k b e i : Z) :
  place d k b e i = Ret d' →
  d'.*1 = d.*1 ++ (if bool_decide (k ∈ d.*1) then [] else [k]).
Proof.
  unfold place, defaultdict.getitem.
  destruct (defaultdict.lookup d k) as [tree|] eqn:Hk.
  - rewrite bool_decide_eq_true_2, app_nil_r; cycle 1.
    { apply list_elem_of_fmap. exists (k, tree). split; [done|].
      by apply lookup_Some_elem_of. }
    destruct (IntervalTree.overlaps tree b e); simpl.
    + by intros [= <-].
    + intros H. inv_bind H. injection H as <-. apply mutate_keys.
  - rewrite bool_decide_eq_false_2 by by apply lookup_None.
    destruct (IntervalTree.overlaps [] b e); simpl.
    + intros [= <-]. by rewrite fmap_app.
    + intros H. inv_bind H. injection H as <-. by rewrite mutate_keys, fmap_app.
Qed.

(** The dict knows the tracks in the order of their first activity. *)
Lemma pack_all_keys (ns : list normalized) (d d' : defaultdict.t) :
  pack_all ns d = Ret d' →
  d'.*1 = d.*1 ++ filter (λ k, k ∉ d.*1) (first_seen (track_id <$> ns)).
Proof.
  revert d. induction ns as [|n ns IH]; intros d H; simpl in H.
  - injection H as <-. by rewrite app_nil_r.
  - inv_bind H. rewrite (IH _ H), (place_keys _ _ _ _ _ _ E).
    rewrite fmap_cons. cbn [first_seen]. case_bool_decide as Hin.
    + rewrite app_nil_r, filter_cons_False by tauto. f_equal.
      symmetry. apply list_filter_filter_l. intros k Hk ->. done.
    + rewrite filter_cons_True by done. rewrite <- (assoc_L (++)). simpl.
      do 2 f_equal. rewrite list_filter_filter. apply list_filter_iff.
      intros k. rewrite elem_of_app, list_elem_of_singleton. tauto.
Qed.

Lemma filter_not_elem_of_nil (l : list Z) : filter (λ k, k ∉ []) l = l.
Proof.
  induction l as [|k l IH]; [done|].
  rewrite filter_cons_True by (by intros ?%elem_of_nil). by rewrite IH.
Qed.






Lemma normalize_all_tracks (input : list activity) (ns : list normalized) :
  normalize_all input = Ret ns → track_id <$> ns = schedule_id <$> input.
Proof.
  intros H%normalize_all_Ret.
  induction H as [|a n input ns Han H IH]; [done|].
  rewrite !fmap_cons, IH. f_equal. by apply normalize_Ret in Han as (_ & -> & _).
Qed.




Lemma place_NoDup (d d' : defaultdict.t) (k b e i : Z) :
  (∀ k t, defaultdict.lookup d k = Some t → NoDup t) →
  place d k b e i = Ret d' →
  ∀ k t, defaultdict.lookup d' k = Some t → NoDup t.
Proof.
  intros Hd H k' t Ht. apply place_Ret in H as (Hother & _ & Hk). simpl in Hk.
  destruct (decide (k' = k)) as [->|Hne]; [|rewrite Hother in Ht by done; eauto].
  assert (NoDup (default [] (defaultdict.lookup d k))) as Htree.
  { destruct (defaultdict.lookup d k) eqn:E; simpl; [eauto|constructor]. }
  destruct Hk as [[_ Hk]|(_ & tree' & Hadd & Hk)]; [congruence|].
  assert (tree' = t) as -> by congruence.
  apply add_Ret in Hadd as [[_ ->]|(Hin & _ & ->)]; [done|].
  apply NoDup_app. split_and!; [done| |apply NoDup_singleton].
  by intros x Hx ->%list_elem_of_singleton.
Qed.

Lemma pack_all_NoDup (ns : list normalized) (d d' : defaultdict.t) :
  (∀ k t, defaultdict.lookup d k = Some t → NoDup t) →
  pack_all ns d = Ret d' →
  ∀ k t, defaultdict.lookup d' k = Some t → NoDup t.
Proof.
  revert d. induction ns as [|n ns IH]; intros d Hd H; simpl in H.
  - by injection H as <-.
  - inv_bind H. apply (IH x); [|done]. by eapply place_NoDup.
Qed.

(** The intervals of a tree come out of the sort in strictly ascending
    order of [begin]. *)
Lemma sorted_begin_strict (tree : IntervalTree.t) :
  disjoint_tree tree → NoDup tree →
  StronglySorted Z.lt (IntervalTree.begin <$> Py.sorted IntervalTree.begin tree).
Proof.
  intros [Hnull Hdisj] Hnodup.
  pose proof (sorted_StronglySorted IntervalTree.begin tree) as Hsorted.
  assert (NoDup (Py.sorted IntervalTree.begin tree)) as Hnodup'
    by by rewrite sorted_Permutation.
  assert (∀ x, x ∈ Py.sorted IntervalTree.begin tree → x ∈ tree) as Hin
    by (intros x; apply elem_of_sorted).
  induction Hsorted as [|x l Hl IH Hx]; [constructor|].
  apply NoDup_cons in Hnodup' as [Hxl Hnodup'].
  rewrite fmap_cons. constructor.
  - apply IH; [done|]. intros y Hy. apply Hin. by right.
  - apply Forall_fmap, Forall_forall. intros y Hy. simpl.
    rewrite Forall_forall in Hx. specialize (Hx y Hy). simpl in Hx.
    assert (x ∈ tree) as Hxt by (apply Hin; left).
    assert (y ∈ tree) as Hyt by (apply Hin; by right).
    destruct (Hdisj x y Hxt Hyt) as [->|Hno]; [done|].
    pose proof (Hnull x Hxt). pose proof (Hnull y Hyt).
    unfold overlap, span in Hno. simpl in Hno. lia.
Qed.

Lemma Forall_exists_Forall2 {A B} (P : A → B → Prop) (l : list B) :
  Forall (λ y, ∃ x, P x y) l → ∃ k, Forall2 P k l.
Proof.
  induction 1 as [|y l [x Hx] _ [k IH]]; [by exists []|].
  exists (x :: k). by constructor.
Qed.

Lemma elem_of_first_seen (l : list Z) (k : Z) : k ∈ first_seen l → k ∈ l.
Proof.
  induction l as [|y l IH]; [done|]. simpl.
  intros [->|Hk]%elem_of_cons; [left|right].
  apply IH. by apply list_elem_of_filter in Hk as [_ ?].
Qed.

Lemma filter_none {A} (P : A → Prop) `{!∀ x, Decision (P x)} (l : list A) :
  (∀ x, x ∈ l → ¬ P x) → filter P l = [].
Proof.
  induction l as [|x l IH]; intros Hl; [done|].
  rewrite filter_cons_False by (apply Hl; left). apply IH.
  intros y Hy. apply Hl. by right.
Qed.

(** Within a schedule the ids come out in strictly ascending order of the
    normalized start time: on an input whose activities all belong to one
    schedule, the result lists activities of the input whose start times
    increase strictly. *)
Theorem optimum_timetable_ascending (input : list activity) (ids : list Z)
    (k : Z) :
  (∀ a, a ∈ input → schedule_id a = k) →
  (optimum_timetable input).2 = Ret ids →
  ∃ sel starts,
    ids = id <$> sel ∧
    (∀ a, a ∈ sel → a ∈ input) ∧
    Forall2 (λ a m, time_to_minutes (start_time a) = Ret m) sel starts ∧
    StronglySorted Z.lt starts.
Proof.
  intros Hk (ns & Hns & H)%optimum_timetable_Ret.
  unfold pack_tracks in H. inv_bind H. injection H as <-.
  pose proof (packed_pack_all ns [] [] _ packed_nil E) as (Hkeys & Htrees & Hseen).
  simpl in Hseen.
  assert (∀ k t, defaultdict.lookup [] k = Some t → NoDup t) as Hempty by done.
  pose proof (pack_all_NoDup ns [] x Hempty E) as Hnodup.
  pose proof (pack_all_keys _ _ _ E) as Hfirst. simpl in Hfirst.
  rewrite filter_not_elem_of_nil, (normalize_all_tracks _ _ Hns) in Hfirst.
  apply normalize_all_Ret in Hns.
  assert (x = [] ∨ ∃ tree, x = [(k, tree)]) as [->|[tree ->]].
  { destruct input as [|a input]; [left; by destruct x|right].
    assert (x.*1 = [k]) as Hx.
    { rewrite Hfirst, fmap_cons. cbn [first_seen].
      rewrite (Hk a) by left. f_equal.
      apply filter_none. intros k' Hk' Hne. apply Hne.
      apply elem_of_first_seen, list_elem_of_fmap in Hk' as (b & -> & Hb).
      apply Hk. by right. }
    destruct x as [|[k' tree] [|]]; try done. injection Hx as ->. eauto. }
  { exists [], []. split_and!; [done| |constructor..].
    by intros a ?%elem_of_nil. }
  assert (defaultdict.lookup [(k, tree)] k = Some tree) as Hlookup
    by (simpl; by rewrite Z.eqb_refl).
  set (l := Py.sorted IntervalTree.begin tree).
  destruct (Forall_exists_Forall2
              (λ a iv, a ∈ input ∧ id a = IntervalTree.data iv ∧
                       time_to_minutes (start_time a) = Ret (IntervalTree.begin iv)) l)
    as [sel Hsel].
  { apply Forall_forall. intros iv Hiv%elem_of_sorted.
    destruct (Hseen k iv) as (n & [j Hj]%list_elem_of_lookup & _ & <-); [by exists tree|].
    destruct (Forall2_lookup_r _ _ _ _ _ Hns Hj) as (a & Ha & Hnorm).
    apply normalize_Ret in Hnorm as (Hid & _ & Hint).
    exists a. split_and!; [apply list_elem_of_lookup; eauto|done|].
    unfold interval in Hint. inv_bind Hint. inv_bind Hint. by injection Hint as -> _. }
  exists sel, (IntervalTree.begin <$> l). split_and!.
  - unfold ordered_ids, defaultdict.values. simpl. rewrite app_nil_r.
    fold l. clear -Hsel. induction Hsel as [|a iv sel l (_ & Ha & _) _ IH]; [done|].
    simpl. by rewrite IH, Ha.
  - intros a [j Hj]%list_elem_of_lookup.
    destruct (Forall2_lookup_l _ _ _ _ _ Hsel Hj) as (iv & _ & Ha & _). done.
  - apply Forall2_fmap_r. eapply Forall2_impl; [exact Hsel|]. by intros a iv (_ & _ & ?).
  - apply sorted_begin_strict; eauto.
Qed.

Lemma optimum_timetable_ascending_witness :
  ∃ sel starts,
    [1; 3] = id <$> sel ∧
    (∀ a, a ∈ sel → a ∈ morning) ∧
    Forall2 (λ a m, time_to_minutes (start_time a) = Ret m) sel starts ∧
    StronglySorted Z.lt starts.
Proof.
  apply (optimum_timetable_ascending morning [1; 3] 1); [|reflexivity].
  intros a Ha.
  apply elem_of_cons in Ha as [->|Ha]; [reflexivity|].
  apply elem_of_cons in Ha as [->|Ha]; [reflexivity|].
  apply list_elem_of_singleton in Ha as ->. reflexivity.
Defined.

End packer_order.

(** ** The weighted scheduler: what is selected on every input *)

Section weighted_selection.
Import Weighted.

(** Whatever the table holds, the backtracking over a list in ascending
    order of [end_time] appends the ids of activities drawn from the first
    [i + 1], in descending order of index, no two of which overlap. *)
Lemma backtrack_selects (activities : list activity) (dp : list Z)
    (fuel : nat) (i : Z) (ids : list Z) :
  ascending end_time activities →
  length dp = length activities →
  -1 ≤ i < Py.len activities → i + 1 ≤ Z.of_nat fuel →
  ∃ sel, backtrack fuel activities dp i ids = Ret (ids ++ (id <$> sel)) ∧
         reverse sel `sublist_of` take (Z.to_nat (i + 1)) activities ∧
         non_overlapping sel.
Proof.
  intros Hsorted Hlen. revert i ids.
  induction fuel as [|fuel IH]; intros i ids Hi Hfuel.
  { assert (i = -1) as -> by lia. exists []. simpl.
    rewrite app_nil_r. split_and!; [done|done|apply non_overlapping_nil]. }
  destruct (decide (i = -1)) as [->|Hi1].
  { exists []. simpl.
    rewrite app_nil_r. split_and!; [done|done|apply non_overlapping_nil]. }
  cbn [backtrack]. destruct (Z.geb_spec i 0); [|lia].
  assert (∃ taken : bool,
            (if i =? 0 then Ret true
             else Py.getitem dp i ≫= λ x, Py.getitem dp (i - 1) ≫= λ y,
                  Ret (negb (x =? y))) = Ret taken) as [taken ->].
  { destruct (Z.eqb_spec i 0); [eauto|].
    destruct (getitem_in_range dp i) as (x & -> & _); [unfold Py.len in *; lia|].
    destruct (getitem_in_range dp (i - 1)) as (y & -> & _); [unfold Py.len in *; lia|].
    simpl. eauto. }
  cbn [mbind res_bind].
  destruct (getitem_in_range activities i) as (a & Hget & Ha); [lia|].
  destruct taken.
  - destruct (prev_sorted activities i a Hsorted Ha) as (p & Hprev & Hp & Hbelow & _);
      [lia|].
    rewrite Hget, Hprev. cbn [mbind res_bind].
    destruct (IH p (ids ++ [id a])) as (sel' & -> & Hsub & Hno); [lia..|].
    exists (a :: sel'). rewrite <- (assoc_L (++)). split; [done|]. split.
    + rewrite reverse_cons. replace (Z.to_nat (i + 1)) with (S (Z.to_nat i)) by lia.
      rewrite (take_S_r _ _ _ Ha). apply sublist_app; [|done].
      etrans; [exact Hsub|].
      rewrite <- (take_drop (Z.to_nat (p + 1)) (take (Z.to_nat i) activities)).
      rewrite take_take.
      replace (Z.to_nat (p + 1) `min` Z.to_nat i)%nat with (Z.to_nat (p + 1)) by lia.
      by apply sublist_inserts_r.
    + apply non_overlapping_cons. split; [|done].
      intros b Hb.
      assert (b ∈ take (Z.to_nat (p + 1)) activities) as [j Hj]%list_elem_of_lookup.
      { apply (elem_of_sublist (reverse sel')); [|done]. by apply elem_of_reverse. }
      apply lookup_take_Some in Hj as [Hj Hjp].
      assert (end_time b ≤ start_time a) as Hba.
      { apply (Hbelow (Z.of_nat j)); [lia|]. by rewrite Nat2Z.id. }
      unfold overlap, span_of. simpl. lia.
  - destruct (IH (i - 1) ids) as (sel & -> & Hsub & Hno); [lia..|].
    exists sel. split; [done|]. split; [|done].
    etrans; [exact Hsub|]. replace (i - 1 + 1) with i by lia.
    replace (Z.to_nat (i + 1)) with (S (Z.to_nat i)) by lia.
    rewrite (take_S_r _ _ _ Ha). by apply sublist_inserts_r.
Qed.

(** On every input, negative values and improper intervals included, the
    ids returned are those of activities of the input, each taken once, in
    descending order of their place in the sorted list, and no two of them
    overlap. *)
Theorem weighted_scheduling_selects (activities : list activity) :
  ∃ sel, (weighted_scheduling activities).2 = Ret (id <$> sel) ∧
         reverse sel `sublist_of` (weighted_scheduling activities).1 ∧
         sel ⊆+ activities ∧
         non_overlapping sel.
Proof.
  rewrite weighted_scheduling_eq. cbn [fst snd].
  set (sorted := Py.sorted end_time activities).
  destruct (dp_table_Ret sorted) as (dp & -> & Hlen & _). cbn [mbind res_bind].
  destruct (backtrack_selects sorted dp (Z.to_nat (Py.len activities))
              (Py.len activities - 1) [])
    as (sel & -> & Hsub & Hno).
  - apply sorted_ascending.
  - done.
  - unfold Py.len, sorted. rewrite sorted_length. lia.
  - lia.
  - rewrite take_ge in Hsub by (unfold Py.len, sorted; rewrite sorted_length; lia).
    exists sel. split_and!; [done..| |done].
    rewrite <- (sorted_Permutation end_time activities), <- (reverse_Permutation sel).
    by apply sublist_submseteq.
Qed.

(** A second call on the list that a first call has left behind leaves it as
    it is and returns the same ids. *)
Theorem weighted_scheduling_again (activities : list activity) :
  weighted_scheduling (weighted_scheduling activities).1
  = weighted_scheduling activities.
Proof.
  rewrite !weighted_scheduling_eq. cbn [fst]. cbv zeta.
  rewrite (sorted_id end_time (Py.sorted end_time activities))
    by apply sorted_StronglySorted.
  unfold Py.len. by rewrite sorted_length.
Qed.

(** When no two activities end together, the order in which the caller
    lists them does not matter. *)
Theorem weighted_scheduling_order (activities activities' : list activity) :
  activities' ≡ₚ activities →
  NoDup (end_time <$> activities) →
  weighted_scheduling activities' = weighted_scheduling activities.
Proof.
  intros Hperm Hends. rewrite !weighted_scheduling_eq. cbv zeta.
  assert (Py.sorted end_time activities' = Py.sorted end_time activities) as ->.
  { apply (StronglySorted_unique_strong (λ a b, end_time a ≤ end_time b)).
    - intros x y Hx%elem_of_sorted Hy%elem_of_sorted Hxy Hyx.
      rewrite Hperm in Hx.
      apply (NoDup_fmap_eq end_time activities); [done..|lia].
    - apply sorted_StronglySorted.
    - apply sorted_StronglySorted.
    - by rewrite !sorted_Permutation. }
  unfold Py.len. by rewrite (Permutation_length Hperm).
Qed.

Lemma weighted_scheduling_order_witness :
  weighted_scheduling (reverse programme) = weighted_scheduling programme.
Proof.
  apply weighted_scheduling_order.
  - apply reverse_Permutation.
  - apply (bool_decide_unpack _). vm_compute. exact I.
Defined.

Lemma weighted_scheduling_maximum_witness :
  ∃ ids, (weighted_scheduling programme).2 = Ret ids ∧
         non_overlapping (selected programme ids) ∧
         ∀ s, s ⊆+ programme → non_overlapping s →
              total s ≤ total (selected programme ids).
Proof.
  assert (∀ P : activity → Prop, P talk → P panel → P show →
            ∀ a, a ∈ programme → P a) as Hall.
  { intros P ? ? ? a Ha. unfold programme in Ha.
    apply elem_of_cons in Ha as [->|Ha]; [done|].
    apply elem_of_cons in Ha as [->|Ha]; [done|].
    by apply list_elem_of_singleton in Ha as ->. }
  apply weighted_scheduling_maximum.
  - apply (bool_decide_unpack _). vm_compute. exact I.
  - exact (Hall (λ a, start_time a < end_time a) eq_refl eq_refl eq_refl).
  - refine (Hall (λ a, 0 ≤ value a) _ _ _); simpl; lia.
Defined.

End weighted_selection.

(** ** The time normalizer: order *)

(** A time before 08:00 is normalized after every time from 08:00 on: it
    belongs to the night of the same day of the festival. *)
Theorem time_to_minutes_night_after_day (day night : string) (t t' : time) :
  strptime day = Ret t → strptime night = Ret t' →
  8 ≤ hour t → hour t' < 8 →
  ∃ m m', time_to_minutes day = Ret m ∧ time_to_minutes night = Ret m' ∧
          480 ≤ m ≤ 1439 ∧ 1464 ≤ m' ≤ 1530.
Proof.
  intros Ht Ht' Hday Hnight.
  pose proof (strptime_range _ _ Ht). pose proof (strptime_range _ _ Ht').
  rewrite (time_to_minutes_day _ _ Ht Hday).
  destruct (time_to_minutes_night _ _ Ht' Hnight) as [-> _].
  eexists _, _. split; [done|]. split; [done|]. lia.
Qed.

Lemma time_to_minutes_night_after_day_witness :
  ∃ m m', time_to_minutes "23:30:00" = Ret m ∧
          time_to_minutes "01:15:00" = Ret m' ∧
          480 ≤ m ≤ 1439 ∧ 1464 ≤ m' ≤ 1530.
Proof.
  apply (time_to_minutes_night_after_day _ _
           {| hour := 23; minute := 30; second := 0 |}
           {| hour := 1; minute := 15; second := 0 |}).
  - reflexivity.
  - reflexivity.
  - simpl. lia.
  - simpl. lia.
Defined.

(** From 08:00 on the normalization follows the clock: of two accepted
    times, the one with the smaller result is the earlier one, and equal
    results mean equal hour and minute. *)
Theorem time_to_minutes_day_order (s s' : string) (t t' : time) (m m' : Z) :
  strptime s = Ret t → strptime s' = Ret t' →
  8 ≤ hour t → 8 ≤ hour t' →
  time_to_minutes s = Ret m → time_to_minutes s' = Ret m' →
  (m < m' ↔ hour t < hour t' ∨ (hour t = hour t' ∧ minute t < minute t')) ∧
  (m = m' ↔ hour t = hour t' ∧ minute t = minute t').
Proof.
  intros Ht Ht' Hh Hh'.
  pose proof (strptime_range _ _ Ht). pose proof (strptime_range _ _ Ht').
  rewrite (time_to_minutes_day _ _ Ht Hh), (time_to_minutes_day _ _ Ht' Hh').
  intros [= <-] [= <-]. lia.
Qed.

Lemma time_to_minutes_day_order_witness :
  (540 < 570 ↔ 9 < 9 ∨ (9 = 9 ∧ 0 < 30)) ∧ (540 = 570 ↔ 9 = 9 ∧ 0 = 30).
Proof.
  apply (time_to_minutes_day_order "09:00:00" "09:30:00"
           {| hour := 9; minute := 0; second := 0 |}
           {| hour := 9; minute := 30; second := 0 |}).
  - reflexivity.
  - reflexivity.
  - simpl. lia.
  - simpl. lia.
  - reflexivity.
  - reflexivity.
Defined.

(** ** [activities_results] *)

Section results_properties.

Lemma enumerate_dict_lookup (ids : list Z) (i : Z) (m : gmap Z Z) (x j : Z) :
  enumerate_dict i ids m !! x = Some j →
  ((x ∉ ids) ∧ m !! x = Some j) ∨
  (i ≤ j ∧ ids !! Z.to_nat (j - i) = Some x).
Proof.
  revert i m. induction ids as [|y ids IH]; intros i m H; simpl in H.
  - left. split; [by intros ?%elem_of_nil|done].
  - destruct (IH _ _ H) as [[Hx Hm]|[Hj Hx]].
    + destruct (decide (y = x)) as [->|Hne].
      * rewrite lookup_insert_eq in Hm. injection Hm as <-.
        right. split; [lia|]. by rewrite Z.sub_diag.
      * rewrite lookup_insert_ne in Hm by done.
        left. split; [|done]. rewrite not_elem_of_cons. auto.
    + right. split; [lia|].
      replace (Z.to_nat (j - i)) with (S (Z.to_nat (j - (i + 1)))) by lia. done.
Qed.

Lemma enumerate_dict_is_Some (ids : list Z) (i : Z) (m : gmap Z Z) (x : Z) :
  x ∈ ids ∨ is_Some (m !! x) → is_Some (enumerate_dict i ids m !! x).
Proof.
  revert i m. induction ids as [|y ids IH]; intros i m H; simpl.
  - destruct H as [[]%elem_of_nil|]; done.
  - apply IH. destruct H as [[->|Hx]%elem_of_cons|Hm]; [|by left|].
    + right. rewrite lookup_insert_eq. eauto.
    + right. destruct (decide (y = x)) as [->|Hne].
      * rewrite lookup_insert_eq. eauto.
      * by rewrite lookup_insert_ne.
Qed.

Lemma keyed_Return (ids_order : gmap Z Z) (data : list item) :
  (∀ x, x ∈ data → is_Some (ids_order !! item_id x)) →
  ∃ ks, keyed ids_order data = Return ks ∧
        snd <$> ks = data ∧
        Forall (λ p, ids_order !! item_id p.2 = Some p.1) ks.
Proof.
  induction data as [|x data IH]; intros Hdata; simpl.
  - by exists [].
  - destruct (Hdata x) as [k Hk]; [left|]. rewrite Hk.
    destruct IH as (ks & -> & Hsnd & Hks); [intros y Hy; apply Hdata; by right|].
    exists ((k, x) :: ks). split; [done|]. split; [by rewrite fmap_cons, Hsnd|].
    by constructor.
Qed.

(** A row whose id is not among the selected ids stops the sort: the lookup
    of its index raises [KeyError]. *)
Lemma keyed_KeyError (ids_order : gmap Z Z) (before after : list item) (x : item) :
  (∀ y, y ∈ before → is_Some (ids_order !! item_id y)) →
  ids_order !! item_id x = None →
  keyed ids_order (before ++ x :: after) = KeyError (item_id x).
Proof.
  induction before as [|y before IH]; intros Hbefore Hx; simpl.
  - by rewrite Hx.
  - destruct (Hbefore y) as [k ->]; [left|].
    rewrite IH; [done| |done]. intros z Hz. apply Hbefore. by right.
Qed.

Context (get_activities_by_user_preferences : Z → list Timetable.activity).
Context (activities_in : list Z → list item).

(** When the timetable is computed and the table answers with rows whose
    ids are among the selected ones, [activities_results] returns those
    rows, all of them, in the order of the timetable: a row never comes
    before a row whose id stands earlier in the list of ids. *)
Theorem activities_results_order (quiz_id : Z) (ids : list Z) :
  (Timetable.optimum_timetable (get_activities_by_user_preferences quiz_id)).2
  = Ret ids →
  (∀ x, x ∈ activities_in ids → item_id x ∈ ids) →
  ∃ result,
    activities_results get_activities_by_user_preferences activities_in quiz_id
    = Return result ∧
    result ≡ₚ activities_in ids ∧
    ∀ (p q : nat) (x y : item),
      (p ≤ q)%nat → result !! p = Some x → result !! q = Some y →
      ∃ i j : nat, (i ≤ j)%nat ∧ ids !! i = Some (item_id x) ∧
                   ids !! j = Some (item_id y).
Proof.
  intros Hids Hrows. unfold activities_results. rewrite Hids.
  destruct (keyed_Return (enumerate_dict 0 ids ∅) (activities_in ids))
    as (ks & -> & Hsnd & Hks).
  { intros x Hx. apply enumerate_dict_is_Some. left. by apply Hrows. }
  eexists. split; [done|]. split.
  { by rewrite sorted_Permutation, Hsnd. }
  intros p q x y Hpq Hx Hy.
  apply list_lookup_fmap_Some in Hx as ([k x'] & -> & Hx).
  apply list_lookup_fmap_Some in Hy as ([k' y'] & -> & Hy).
  pose proof (sorted_ascending fst ks p q _ _ Hpq Hx Hy) as Hk. simpl in *.
  assert (∀ k z, (k, z) ∈ Py.sorted fst ks →
            0 ≤ k ∧ ids !! Z.to_nat k = Some (item_id z)) as Hindex.
  { intros k0 z Hz%elem_of_sorted. rewrite Forall_forall in Hks.
    specialize (Hks _ Hz). simpl in Hks.
    apply enumerate_dict_lookup in Hks as [[_ Hempty]|[? Hk0]]; [done|].
    by rewrite Z.sub_0_r in Hk0. }
  destruct (Hindex k x') as [? ?]; [apply list_elem_of_lookup; eauto|].
  destruct (Hindex k' y') as [? ?]; [apply list_elem_of_lookup; eauto|].
  exists (Z.to_nat k), (Z.to_nat k'). split; [lia|done].
Qed.

(** The first row that the table answers with and whose id is not among the
    selected ids makes [activities_results] raise [KeyError] with that
    id. *)
Theorem activities_results_KeyError (quiz_id : Z) (ids : list Z)
    (before after : list item) (x : item) :
  (Timetable.optimum_timetable (get_activities_by_user_preferences quiz_id)).2
  = Ret ids →
  activities_in ids = before ++ x :: after →
  (∀ y, y ∈ before → item_id y ∈ ids) →
  item_id x ∉ ids →
  activities_results get_activities_by_user_preferences activities_in quiz_id
  = KeyError (item_id x).
Proof.
  intros Hids Hrows Hbefore Hx. unfold activities_results. rewrite Hids, Hrows.
  rewrite keyed_KeyError; [done| |].
  - intros y Hy. apply enumerate_dict_is_Some. left. by apply Hbefore.
  - destruct (enumerate_dict 0 ids ∅ !! item_id x) as [j|] eqn:E; [|done].
    apply enumerate_dict_lookup in E as [[_ ?]|[_ Hin]]; [done|].
    destruct Hx. apply list_elem_of_lookup. eauto.
Qed.

End results_properties.

Lemma activities_results_order_witness :
  ∃ result,
    activities_results (λ _, morning) activities_table 7 = Return result ∧
    result ≡ₚ activities_table [1; 3] ∧
    ∀ (p q : nat) (x y : item),
      (p ≤ q)%nat → result !! p = Some x → result !! q = Some y →
      ∃ i j : nat, (i ≤ j)%nat ∧ [1; 3] !! i = Some (item_id x) ∧
                   [1; 3] !! j = Some (item_id y).
Proof.
  apply (activities_results_order (λ _, morning) activities_table 7 [1; 3]).
  - reflexivity.
  - intros x Hx. unfold activities_table in Hx.
    by apply list_elem_of_filter in Hx as [? _].
Defined.

Lemma activities_results_KeyError_witness :
  activities_results (λ _, morning) (λ _, [opening_item; workshop_item]) 7
  = KeyError 2.
Proof.
  apply (activities_results_KeyError (λ _, morning)
           (λ _, [opening_item; workshop_item]) 7 [1; 3] [opening_item] []
           workshop_item).
  - reflexivity.
  - reflexivity.
  - intros y ->%list_elem_of_singleton. apply (bool_decide_unpack _). vm_compute. exact I.
  - apply (bool_decide_unpack _). vm_compute. exact I.
Defined.

(** ** [activities_swipes] *)

Section swipes_properties.

Lemma np_delete_Ret (arr arr' : list Z) (idx : Z) :
  np_delete arr idx = Ret arr' →
  ∃ x, Py.getitem arr idx = Ret x ∧ arr ≡ₚ x :: arr' ∧
       length arr = S (length arr').
Proof.
  unfold np_delete, Py.getitem.
  set (j := if idx <? 0 then idx + Py.len arr else idx).
  destruct ((0 <=? j) && (j <? Py.len arr)) eqn:Hj; [|discriminate].
  apply andb_true_iff in Hj as [?%Z.leb_le ?%Z.ltb_lt].
  intros [= <-].
  destruct (lookup_lt_is_Some_2 arr (Z.to_nat j)) as [x Hx]; [unfold Py.len in *; lia|].
  rewrite Hx. exists x. split; [done|]. split; [by apply delete_Permutation|].
  rewrite length_delete by eauto. apply lookup_lt_Some in Hx. lia.
Qed.

Lemma np_delete_in_range (arr : list Z) (idx : Z) :
  0 ≤ idx < Py.len arr → ∃ arr', np_delete arr idx = Ret arr'.
Proof.
  intros Hidx. unfold np_delete.
  destruct (Z.ltb_spec idx 0); [lia|].
  destruct (Z.leb_spec 0 idx); [|lia].
  destruct (Z.ltb_spec idx (Py.len arr)); [eauto|lia].
Qed.

Context {row : Type}.
Context (get_matching_activities_by_quiz_tags : Z → Z → list row).
Context (choice : nat → Z) (sample : list Z).

(** What is drawn leaves [indexes]: the draws and what is left are the
    indexes the loop started with, each once. *)
Lemma roulette_Ret (rounds r : nat) (indexes weights selected out : list Z) :
  roulette choice rounds r indexes weights selected = Ret out →
  ∃ rest, out ++ rest ≡ₚ selected ++ indexes ∧
          length out = (length selected + rounds)%nat.
Proof.
  revert r indexes weights selected.
  induction rounds as [|rounds IH]; intros r indexes weights selected H; simpl in H.
  - injection H as <-. exists indexes. split; [done|lia].
  - inv_bind H. inv_bind H. inv_bind H. inv_bind H.
    apply np_delete_Ret in E1 as (x' & Hx' & Hperm & _).
    assert (x' = x0) as -> by congruence.
    destruct (IH _ _ _ _ H) as (rest & Hrest & Hlen).
    exists rest. split.
    + rewrite Hrest, Hperm, <- (assoc_L (++)). done.
    + rewrite Hlen, length_app. simpl. lia.
Qed.

Lemma roulette_returns (rounds r : nat) (indexes weights selected : list Z) :
  length weights = length indexes →
  (rounds ≤ length indexes)%nat →
  (∀ k : nat, (k < rounds)%nat →
     0 ≤ choice (r + k) < Z.of_nat (length indexes) - Z.of_nat k) →
  ∃ out, roulette choice rounds r indexes weights selected = Ret out.
Proof.
  revert r indexes weights selected.
  induction rounds as [|rounds IH]; intros r indexes weights selected Hw Hrounds Hchoice;
    simpl; [eauto|].
  pose proof (Hchoice 0%nat ltac:(lia)) as H0. rewrite Nat.add_0_r in H0.
  destruct (Z.leb_spec (Py.len indexes) 0); [unfold Py.len in *; lia|].
  cbn [mbind res_bind].
  destruct (getitem_in_range indexes (choice r)) as (x & -> & _);
    [unfold Py.len; lia|].
  cbn [mbind res_bind].
  destruct (np_delete_in_range indexes (choice r)) as [indexes' Hi];
    [unfold Py.len; lia|].
  destruct (np_delete_in_range weights (choice r)) as [weights' Hw'];
    [unfold Py.len; lia|].
  rewrite Hi, Hw'. cbn [mbind res_bind].
  apply np_delete_Ret in Hi as (_ & _ & _ & Hli).
  apply np_delete_Ret in Hw' as (_ & _ & _ & Hlw).
  apply IH; [lia..|].
  intros k Hk. specialize (Hchoice (S k) ltac:(lia)).
  replace (S r + k)%nat with (r + S k)%nat by lia. lia.
Qed.

Lemma StronglySorted_strict (l : list Z) :
  StronglySorted Z.le l → NoDup l → StronglySorted Z.lt l.
Proof.
  induction 1 as [|x l Hl IH Hx]; intros Hnodup; [constructor|].
  apply NoDup_cons in Hnodup as [Hxl Hnodup]. constructor; [auto|].
  rewrite Forall_forall in Hx. apply Forall_forall. intros y Hy.
  specialize (Hx y Hy). destruct (decide (x = y)) as [->|]; [done|lia].
Qed.

(** Rows read at strictly ascending indexes are a subsequence of the rows. *)
Lemma comprehension_getitem_sublist (results : list row) (js : list Z)
    (lo : Z) (out : list row) :
  StronglySorted Z.lt js → 0 ≤ lo → (∀ j, j ∈ js → lo ≤ j) →
  comprehension (Py.getitem results) js = Ret out →
  out `sublist_of` drop (Z.to_nat lo) results ∧ length out = length js.
Proof.
  intros Hjs. revert lo out.
  induction Hjs as [|j js Hjs IH Hj]; intros lo out Hlo Hge H; simpl in H.
  - injection H as <-. split; [apply sublist_nil_l|done].
  - inv_bind H. inv_bind H. injection H as <-.
    assert (lo ≤ j) as Hloj by (apply Hge; left).
    apply getitem_Ret in E; [|lia].
    destruct (IH (j + 1) x0) as [Hsub Hlen]; [lia| |done|].
    { intros j' Hj'. rewrite Forall_forall in Hj. specialize (Hj j' Hj'). lia. }
    split; [|simpl; lia].
    rewrite <- (take_drop (Z.to_nat (j - lo)) (drop (Z.to_nat lo) results)).
    apply sublist_inserts_l. rewrite drop_drop.
    replace (Z.to_nat lo + Z.to_nat (j - lo))%nat with (Z.to_nat j) by lia.
    rewrite (drop_S _ _ _ E). apply sublist_skip.
    by replace (S (Z.to_nat j)) with (Z.to_nat (j + 1)) by lia.
Qed.

Lemma comprehension_getitem_returns (results : list row) (js : list Z) :
  (∀ j, j ∈ js → 0 ≤ j < Py.len results) →
  ∃ out, comprehension (Py.getitem results) js = Ret out.
Proof.
  induction js as [|j js IH]; intros Hjs; simpl; [eauto|].
  destruct (getitem_in_range results j) as (x & -> & _); [apply Hjs; left|].
  destruct IH as [out ->]; [intros j' Hj'; apply Hjs; by right|].
  simpl. eauto.
Qed.

(** What the sort makes of distinct indexes none of which is negative. *)
Lemma sorted_indexes (selected : list Z) :
  NoDup selected → (∀ x, x ∈ selected → 0 ≤ x) →
  StronglySorted Z.lt (Py.sorted (λ x, x) selected) ∧
  ∀ j, j ∈ Py.sorted (λ x, x) selected → 0 ≤ j.
Proof.
  intros Hnodup Hpos. split.
  - apply StronglySorted_strict.
    + apply (sorted_StronglySorted (λ x : Z, x)).
    + by rewrite sorted_Permutation.
  - intros j Hj%elem_of_sorted. auto.
Qed.

(** With the roulette, whatever is drawn: when [activities_swipes] returns,
    it returns eight rows of the data source, each taken once and in the
    order of the ranking; this needs [match_count] to be 8 at least. *)
Theorem activities_swipes_roulette (quiz_id match_count : Z) (out : list row) :
  activities_swipes get_matching_activities_by_quiz_tags choice sample
    quiz_id match_count true = Ret out →
  out `sublist_of` get_matching_activities_by_quiz_tags quiz_id match_count ∧
  length out = 8%nat ∧ 8 ≤ match_count.
Proof.
  unfold activities_swipes. intros H. inv_bind H.
  apply roulette_Ret in E as (rest & Hperm & Hlen). simpl in Hperm, Hlen.
  assert (NoDup (x ++ rest)) as Hnodup by (rewrite Hperm; apply NoDup_seqZ).
  apply NoDup_app in Hnodup as (Hnodup & _ & _).
  assert (∀ j, j ∈ x → 0 ≤ j < match_count) as Hrange.
  { intros j Hj. assert (j ∈ seqZ 0 match_count) as Hin.
    { rewrite <- Hperm. apply elem_of_app. by left. }
    apply elem_of_seqZ in Hin. lia. }
  destruct (sorted_indexes x Hnodup) as [Hsorted Hpos]; [intros j Hj; by apply Hrange|].
  destruct (comprehension_getitem_sublist _ _ 0 _ Hsorted (Z.le_refl 0) Hpos H)
    as [Hsub Hout].
  rewrite sorted_length in Hout. split_and!; [done|lia|].
  apply Permutation_length in Hperm.
  rewrite length_app, length_seqZ in Hperm. lia.
Qed.

(** With the roulette and a data source that answers with [match_count]
    rows at least, 8 at least, [activities_swipes] returns whatever is
    drawn. *)
Theorem activities_swipes_roulette_returns (quiz_id match_count : Z) :
  8 ≤ match_count →
  match_count ≤ Py.len (get_matching_activities_by_quiz_tags quiz_id match_count) →
  (∀ r : nat, (r < 8)%nat → 0 ≤ choice r < match_count - Z.of_nat r) →
  ∃ out,
    activities_swipes get_matching_activities_by_quiz_tags choice sample
      quiz_id match_count true = Ret out.
Proof.
  intros Hcount Hrows Hchoice. unfold activities_swipes.
  destruct (roulette_returns 8 0 (seqZ 0 match_count)
              (reverse (seqZ 1 match_count)) []) as [selected Hsel].
  - rewrite length_reverse, !length_seqZ. done.
  - rewrite length_seqZ. lia.
  - intros k Hk. rewrite length_seqZ. simpl. specialize (Hchoice k Hk). lia.
  - rewrite Hsel. cbn [mbind res_bind].
    apply comprehension_getitem_returns. intros j Hj%elem_of_sorted.
    apply roulette_Ret in Hsel as (rest & Hperm & _). simpl in Hperm.
    assert (j ∈ seqZ 0 match_count) as Hin.
    { rewrite <- Hperm. apply elem_of_app. by left. }
    apply elem_of_seqZ in Hin. lia.
Qed.

(** Without the roulette, [random.sample] answering with eight distinct
    indexes below [match_count]: when [activities_swipes] returns, it
    returns eight rows of the data source, each taken once and in the order
    of the ranking. *)
Theorem activities_swipes_uniform (quiz_id match_count : Z) (out : list row) :
  NoDup sample → length sample = 8%nat →
  (∀ x, x ∈ sample → 0 ≤ x < match_count) →
  activities_swipes get_matching_activities_by_quiz_tags choice sample
    quiz_id match_count false = Ret out →
  out `sublist_of` get_matching_activities_by_quiz_tags quiz_id match_count ∧
  length out = 8%nat.
Proof.
  intros Hnodup Hlen Hrange. unfold activities_swipes. intros H. inv_bind H.
  destruct (match_count <? 8); [done|]. injection E as <-.
  destruct (sorted_indexes sample Hnodup) as [Hsorted Hpos];
    [intros j Hj; by apply Hrange|].
  destruct (comprehension_getitem_sublist _ _ 0 _ Hsorted (Z.le_refl 0) Hpos H)
    as [Hsub Hout].
  rewrite sorted_length in Hout. split; [done|lia].
Qed.

End swipes_properties.

Lemma activities_swipes_roulette_witness :
  seqZ 100 8 `sublist_of` ranking 1 10 ∧ length (seqZ 100 8) = 8%nat ∧ 8 ≤ 10.
Proof.
  apply (activities_swipes_roulette ranking first_left eight 1 10).
  reflexivity.
Defined.

Lemma activities_swipes_roulette_returns_witness :
  ∃ out, activities_swipes ranking first_left eight 1 10 true = Ret out.
Proof.
  apply activities_swipes_roulette_returns.
  - lia.
  - unfold ranking, Py.len. rewrite length_seqZ. lia.
  - intros r Hr. unfold first_left. lia.
Defined.

Lemma activities_swipes_uniform_witness :
  [100; 101; 102; 103; 104; 105; 107; 109] `sublist_of` ranking 1 10 ∧
  length [100; 101; 102; 103; 104; 105; 107; 109] = 8%nat.
Proof.
  apply (activities_swipes_uniform ranking first_left eight 1 10).
  - apply (bool_decide_unpack _). vm_compute. exact I.
  - reflexivity.
  - intros x Hx. apply (bool_decide_unpack _).
    revert x Hx. apply Forall_forall. apply (bool_decide_unpack _).
    vm_compute. exact I.
  - reflexivity.
Defined.

(** ** The table holds the optimum of every prefix *)

Section table_optimum.
Import Weighted.

(** On a list of activities with int values in ascending order of
    [end_time], with proper intervals and a first value that is not
    negative, entry [i] of the table is the largest summed value of a
    non-overlapping set drawn from the first [i + 1] activities, and such a
    set attains it.  (On float values the table can stay below that sum,
    [weighted_scheduling_float_absorbed].) *)
Theorem dp_table_optimum (activities : list activity) :
  ascending end_time activities →
  proper activities →
  (∀ a, activities !! 0%nat = Some a → 0 ≤ value a) →
  ∃ dp, dp_table activities = Ret dp ∧ length dp = length activities ∧
        ∀ i : nat, (i < length activities)%nat →
          ∃ best, best `sublist_of` take (S i) activities ∧
                  non_overlapping best ∧
                  dp !! i = Some (total best) ∧
                  ∀ s, s `sublist_of` take (S i) activities →
                       non_overlapping s → total s ≤ total best.
Proof.
  intros Hsorted Hproper Hfirst.
  destruct (dp_table_Ret activities) as (dp & Hdp & Hlen & Hrec).
  exists dp. split; [done|]. split; [done|]. intros i Hi.
  destruct (backtrack_attains activities dp Hsorted Hfirst Hlen Hrec
              (S i) (Z.of_nat i) []) as (sel & _ & Hsub & Hno & Htotal).
  { unfold Py.len. lia. }
  { lia. }
  replace (Z.to_nat (Z.of_nat i + 1)) with (S i) in Hsub by lia.
  assert (total (reverse sel) = entry dp (Z.of_nat i)) as Hbest.
  { by rewrite (total_Permutation _ _ (reverse_Permutation sel)). }
  exists (reverse sel). split; [done|]. split.
  { apply (non_overlapping_Permutation sel); [|done].
    symmetry. apply reverse_Permutation. }
  split.
  - rewrite Hbest. unfold entry. destruct (Z.ltb_spec (Z.of_nat i) 0); [lia|].
    rewrite Nat2Z.id.
    destruct (lookup_lt_is_Some_2 dp i) as [x ->]; [lia|]. done.
  - intros s Hs Hs_no. rewrite Hbest.
    replace (Z.of_nat i) with (Z.of_nat (S i) - 1) by lia.
    apply (table_upper_bound activities dp Hsorted Hproper Hfirst Hlen Hrec);
      [lia|done..].
Qed.

Lemma dp_table_optimum_witness :
  ∃ dp, dp_table programme = Ret dp ∧ length dp = length programme ∧
        ∀ i : nat, (i < length programme)%nat →
          ∃ best, best `sublist_of` take (S i) programme ∧
                  non_overlapping best ∧
                  dp !! i = Some (total best) ∧
                  ∀ s, s `sublist_of` take (S i) programme →
                       non_overlapping s → total s ≤ total best.
Proof.
  apply dp_table_optimum.
  - apply StronglySorted_ascending. repeat constructor; simpl; lia.
  - intros a Ha. unfold programme in Ha.
    apply elem_of_cons in Ha as [->|Ha]; [reflexivity|].
    apply elem_of_cons in Ha as [->|Ha]; [reflexivity|].
    apply list_elem_of_singleton in Ha as ->. reflexivity.
  - intros a [= <-]. simpl. lia.
Defined.

End table_optimum.
